(** * graph-coloring: the loader, the strategy search and the writer of
      [main.py], over a model of the graph library's greedy colouring.

    [main.py] reads an edge list, asks the graph library for a greedy
    colouring under each of seven strategies, keeps the name of the strategy
    that needed the fewest colours, colours the graph once more with that
    strategy and writes the colouring out.

    The three functions of [main.py] are embedded from their source.  The
    graph object and [greedy_color] belong to the graph library, whose code
    is not part of the repository: they are modelled from the design
    document, and every such definition says so. *)

From Stdlib Require Import Ascii String.
From stdpp Require Import gmap strings list sorting pretty.

(** ** Exceptions *)

Inductive exn : Set :=
  | StopIteration       (* [next] on an exhausted iterator *)
  | ValueError          (* [int] on a bad literal, a failed unpacking, [max] of nothing *)
  | UnboundLocalError.  (* a local read before it was assigned *)

Inductive result (A : Type) : Type :=
  | Ok (a : A)
  | Raise (e : exn).
Arguments Ok {A} a.
Arguments Raise {A} e.

(** Sequencing: the first exception raised ends the computation. *)
Global Instance result_bind : MBind result := λ A B k r,
  match r with
  | Ok a => k a
  | Raise e => Raise e
  end.

(** ** The graph object *)

Module Graph.

(** Modelled from the spec: the graph class of the graph library is not in
    the repository.  The design gives a graph as a set of vertices and a
    set of undirected edges; this is the adjacency view of it, kept as the
    library keeps it: a dictionary from each vertex to its neighbours,
    both in insertion order. *)
Definition t : Type := list (Z * list Z).

Definition empty : t := [].

(** [list(G)]: the vertices, in insertion order. *)
Definition nodes (G : t) : list Z := G.*1.

(** [G[u]]: the neighbours of [u], in insertion order. *)
Fixpoint neighbors (G : t) (u : Z) : list Z :=
  match G with
  | [] => []
  | (w, ns) :: G' => if decide (w = u) then ns else neighbors G' u
  end.

(** A self-loop counts twice, as usual for undirected graphs. *)
Definition degree (G : t) (u : Z) : nat :=
  length (neighbors G u) + (if decide (u ∈ neighbors G u) then 1 else 0).

Definition add_node (u : Z) (G : t) : t :=
  if decide (u ∈ nodes G) then G else G ++ [(u, [])].

(** [adj[u][v] = ...]: an existing key keeps its place. *)
Fixpoint link (u v : Z) (G : t) : t :=
  match G with
  | [] => []
  | (w, ns) :: G' =>
      if decide (w = u)
      then (w, if decide (v ∈ ns) then ns else ns ++ [v]) :: G'
      else (w, ns) :: link u v G'
  end.

(** Modelled from the spec: "each line adds an undirected edge";
    vertices appearing in an edge are implicitly part of the vertex set. *)
Definition add_edge (u v : Z) (G : t) : t :=
  link v u (link u v (add_node v (add_node u G))).

(** The dictionary invariant (keys are unique) and undirectedness. *)
Definition symmetric (G : t) : Prop :=
  ∀ u v, v ∈ neighbors G u → u ∈ neighbors G v.

Definition wf (G : t) : Prop := NoDup (nodes G) ∧ symmetric G.

Definition loop_free (G : t) : Prop := ∀ u, u ∉ neighbors G u.

(** [(u, v)] is an edge of [G]. *)
Definition edge (G : t) (u v : Z) : Prop := v ∈ neighbors G u.

End Graph.

(** ** [read_graph_from_csv] *)

Section Loader.

(** The builtin [int] on a string: [None] where it raises [ValueError]. *)
Variable py_int : string → option Z.

Fixpoint split_on (d : ascii) (s : string) : list string :=
  match s with
  | EmptyString => [EmptyString]
  | String c s' =>
      if Ascii.eqb c d then EmptyString :: split_on d s'
      else match split_on d s' with
           | [] => [String c EmptyString]
           | f :: fs => String c f :: fs
           end
  end.

(** [csv.reader(csvfile, delimiter=" ")] on a file given by its lines,
    without their terminators.  This is the reader on [plain] lines only
    (defined with the vocabulary below): the quoting of the csv module,
    which can also make one row span several lines, is not modelled, and
    what is proved of the loader on arbitrary files is proved for plain
    ones.  A blank line is the empty row. *)
Definition csv_row (line : string) : list string :=
  if decide (line = EmptyString) then [] else split_on " "%char line.

Definition csv_reader (file : list string) : list (list string) :=
  csv_row <$> file.

(** [vertex1, vertex2 = map(int, row)]: too few values, too many values
    and a bad literal all raise [ValueError]. *)
Definition unpack_edge (row : list string) : result (Z * Z) :=
  match row with
  | [a; b] =>
      match py_int a, py_int b with
      | Some x, Some y => Ok (x, y)
      | _, _ => Raise ValueError
      end
  | _ => Raise ValueError
  end.

(** The body of [for row in reader]. *)
Fixpoint read_rows (rows : list (list string)) (graph : Graph.t)
  : result Graph.t :=
  match rows with
  | [] => Ok graph
  | row :: rows' =>
      '(vertex1, vertex2) ← unpack_edge row;
      read_rows rows' (Graph.add_edge vertex1 vertex2 graph)
  end.

Definition read_graph_from_csv (file : list string) : result Graph.t :=
  match csv_reader file with
  | [] => Raise StopIteration          (* next(reader) *)
  | _ :: rows => read_rows rows Graph.empty
  end.

(** A line "consists of exactly two integers", and which. *)
Definition edge_of_line (line : string) : option (Z * Z) :=
  match unpack_edge (csv_row line) with
  | Ok e => Some e
  | Raise _ => None
  end.

Definition add_edges (es : list (Z * Z)) (G : Graph.t) : Graph.t :=
  foldl (λ g e, Graph.add_edge e.1 e.2 g) G es.

(** The edge lines without the repeats: a line is dropped when an earlier
    line gave the same pair of vertices, in either order. *)
Fixpoint drop_duplicates (seen : list (Z * Z)) (lines : list string)
  : list string :=
  match lines with
  | [] => []
  | x :: rest =>
      match edge_of_line x with
      | Some (a, b) =>
          if decide ((a, b) ∈ seen ∨ (b, a) ∈ seen)
          then drop_duplicates seen rest
          else x :: drop_duplicates ((a, b) :: seen) rest
      | None => x :: drop_duplicates seen rest
      end
  end.

End Loader.

(** The builtin [int] on strings of characters below 256, used where a
    concrete [int] is needed: blanks around the literal are dropped, then
    come an optional sign and decimal digits, with single underscores
    allowed between digits. *)
Definition is_space (c : ascii) : bool :=
  bool_decide (nat_of_ascii c ∈ [9; 10; 11; 12; 13; 28; 29; 30; 31; 32; 133; 160]).

Fixpoint lstrip (s : string) : string :=
  match s with
  | String c s' => if is_space c then lstrip s' else s
  | EmptyString => EmptyString
  end.

Definition strip (s : string) : string :=
  String.rev (lstrip (String.rev (lstrip s))).

Definition digit_of (c : ascii) : option Z :=
  let n := nat_of_ascii c in
  if bool_decide (48 ≤ n ≤ 57) then Some (Z.of_nat (n - 48)) else None.

(** [after_digit] tells whether the character before was a digit. *)
Fixpoint digits (s : string) (acc : Z) (after_digit : bool) : option Z :=
  match s with
  | EmptyString => if after_digit then Some acc else None
  | String c s' =>
      if Ascii.eqb c "_" then
        if after_digit then digits s' acc false else None
      else
        match digit_of c with
        | Some d => digits s' (10 * acc + d)%Z true
        | None => None
        end
  end.

Definition int_decimal (s : string) : option Z :=
  match strip s with
  | String "-" s' => Z.opp <$> digits s' 0 false
  | String "+" s' => digits s' 0 false
  | s' => digits s' 0 false
  end.

(** ** The greedy colouring engine *)

(** A colouring is a dictionary from vertex to colour. *)
Abbreviation Coloring := (gmap Z nat).

Inductive Strategy : Set :=
  | largest_first
  | random_sequential
  | smallest_last
  | independent_set
  | connected_sequential_bfs
  | connected_sequential_dfs
  | saturation_largest_first.

Global Instance Strategy_eq_dec : EqDecision Strategy.
Proof. solve_decision. Defined.

(** Modelled from the spec: the library's random source is not in the
    repository.  It is the tape of the raw draws still to come; a draw past
    the end of the tape is 0. *)
Definition Rng : Type := list nat.

Module Greedy.

Import Graph.

(** Modelled from the spec: "the smallest non-negative color not already
    used": the colours are tried upward from [c]; [fuel] bounds the number
    of colours tried, and the length of [used] is enough. *)
Fixpoint first_free (fuel c : nat) (used : list nat) : nat :=
  match fuel with
  | O => c
  | S fuel' => if decide (c ∈ used) then first_free fuel' (S c) used else c
  end.

Definition smallest_free (used : list nat) : nat :=
  first_free (length used) 0 used.

(** The colours of the neighbours of [u] that are coloured already. *)
Definition nbr_colors (G : t) (colors : Coloring) (u : Z) : list nat :=
  omap (λ v, colors !! v) (neighbors G u).

(** Modelled from the spec: a visited vertex gets "the smallest
    non-negative color not already used by any already-colored
    neighbor". *)
Definition color_node (G : t) (colors : Coloring) (u : Z) : Coloring :=
  <[u := smallest_free (nbr_colors G colors u)]> colors.

Definition greedy_over (G : t) (order : list Z) : Coloring :=
  foldl (color_node G) ∅ order.

(** *** Vertex orderings *)

(** The first element of [l] that no later element beats. *)
Fixpoint first_best (better : Z → Z → bool) (l : list Z) : option Z :=
  match l with
  | [] => None
  | x :: l' =>
      match first_best better l' with
      | Some y => if better y x then Some y else Some x
      | None => Some x
      end
  end.

(** Orderings that choose the next vertex among those not yet visited:
    [pick] sees a state, the vertices visited so far and the remaining
    ones; [upd] moves the state on. *)
Section select.
Context {St : Type}.
Variable pick : St → list Z → list Z → option Z.
Variable upd : St → Z → St.

Fixpoint select_loop (n : nat) (s : St) (visited remaining : list Z)
  : list Z * St :=
  match n with
  | O => (visited, s)
  | S n' =>
      match pick s visited remaining with
      | None => (visited, s)
      | Some u =>
          select_loop n' (upd s u) (visited ++ [u])
                      (filter (λ x, x ≠ u) remaining)
      end
  end.
End select.

Definition select_order {St} pick upd (G : t) (s : St) : list Z * St :=
  select_loop pick upd (length (nodes G)) s [] (nodes G).

(** The neighbours of [u] among [rem], and their number. *)
Definition nbrs_in (G : t) (rem : list Z) (u : Z) : list Z :=
  filter (λ w, w ∈ rem) (neighbors G u).

Definition degree_in (G : t) (rem : list Z) (u : Z) : nat :=
  length (nbrs_in G rem u).

(** Modelled from the spec: largest_first is "descending degree"; equal
    degrees keep the insertion order of the vertices. *)
Fixpoint insert_desc (key : Z → nat) (x : Z) (l : list Z) : list Z :=
  match l with
  | [] => [x]
  | y :: l' =>
      if decide (key y < key x) then x :: l else y :: insert_desc key x l'
  end.

Definition sort_desc (key : Z → nat) (l : list Z) : list Z :=
  foldl (λ acc x, insert_desc key x acc) [] l.

Definition order_largest_first (G : t) : list Z :=
  sort_desc (degree G) (nodes G).

(** Modelled from the spec: random_sequential is a "uniformly random
    permutation": each next vertex is drawn among the remaining ones. *)
Definition pick_random (rng : Rng) (_ rem : list Z) : option Z :=
  rem !! (hd 0 rng `mod` length rem).

Definition order_random_sequential (G : t) (rng : Rng) : list Z * Rng :=
  select_order pick_random (λ rng _, tl rng) G rng.

(** Modelled from the spec: smallest_last is "iteratively remove the
    minimum-degree vertex from a working copy, prepend removed vertices to
    build final order". *)
Definition pick_smallest (G : t) (_ : unit) (_ rem : list Z) : option Z :=
  first_best (λ y x, bool_decide (degree_in G rem y < degree_in G rem x)) rem.

Definition order_smallest_last (G : t) : list Z :=
  reverse (select_order (pick_smallest G) (λ s _, s) G ()).1.

(** Modelled from the spec: connected_sequential is the "breadth-first"
    (respectively "depth-first") "traversal order per connected
    component": the next vertex is the first unvisited neighbour of the
    earliest (respectively latest) visited vertex that still has one, and
    the first remaining vertex when a component is exhausted. *)
Definition pick_connected (dfs : bool) (G : t) (_ : unit)
    (visited rem : list Z) : option Z :=
  match (if dfs then reverse visited else visited) ≫= nbrs_in G rem with
  | w :: _ => Some w
  | [] => head rem
  end.

Definition order_connected_sequential (dfs : bool) (G : t) : list Z :=
  (select_order (pick_connected dfs G) (λ s _, s) G ()).1.

(** Modelled from the spec: saturation_largest_first picks "the uncolored
    vertex with the most distinct colors among its already-colored
    neighbors (saturation degree), ties broken by highest remaining
    degree", and colours it at once. *)
Definition saturation (G : t) (colors : Coloring) (u : Z) : nat :=
  length (remove_dups (nbr_colors G colors u)).

Definition pick_saturated (G : t) (colors : Coloring) (_ rem : list Z)
  : option Z :=
  first_best
    (λ y x, bool_decide
       (saturation G colors x < saturation G colors y
        ∨ (saturation G colors x = saturation G colors y
           ∧ degree_in G rem x < degree_in G rem y)))
    rem.

Definition color_saturation_largest_first (G : t) : Coloring :=
  (select_order (pick_saturated G) (color_node G) G ∅).2.

(** Modelled from the spec: independent_set is "repeatedly extract a
    maximal independent set from the remaining uncolored vertices,
    coloring each extracted set with the next color directly". *)
Definition extend_independent (G : t) (acc : list Z) (u : Z) : list Z :=
  if decide (Exists (λ v, v ∈ acc) (neighbors G u)) then acc else acc ++ [u].

Definition maximal_independent_set (G : t) (rem : list Z) : list Z :=
  foldl (extend_independent G) [] rem.

Definition paint (k : nat) (colors : Coloring) (vs : list Z) : Coloring :=
  foldl (λ c u, <[u := k]> c) colors vs.

Fixpoint independent_set_loop (G : t) (n k : nat) (rem : list Z)
    (colors : Coloring) : Coloring :=
  match n, rem with
  | S n', _ :: _ =>
      let I := maximal_independent_set G rem in
      independent_set_loop G n' (S k) (filter (λ x, x ∉ I) rem)
                           (paint k colors I)
  | _, _ => colors
  end.

Definition color_independent_set (G : t) : Coloring :=
  independent_set_loop G (length (nodes G)) 0 (nodes G) ∅.

(** Modelled from the spec: [color(graph, strategy)], the library's
    [greedy_color(graph, strategy=...)].  Only random_sequential reads the
    random source.  The spec leaves the behaviour on a graph with a
    self-loop undefined; what is proved of a colouring returned, or of a
    run that returns one, is proved for graphs that are [Graph.loop_free]. *)
Definition greedy_color (G : t) (strategy : Strategy) (rng : Rng)
  : Coloring * Rng :=
  match strategy with
  | largest_first => (greedy_over G (order_largest_first G), rng)
  | random_sequential =>
      let '(order, rng') := order_random_sequential G rng in
      (greedy_over G order, rng')
  | smallest_last => (greedy_over G (order_smallest_last G), rng)
  | independent_set => (color_independent_set G, rng)
  | connected_sequential_bfs =>
      (greedy_over G (order_connected_sequential false G), rng)
  | connected_sequential_dfs =>
      (greedy_over G (order_connected_sequential true G), rng)
  | saturation_largest_first => (color_saturation_largest_first G, rng)
  end.

End Greedy.

(** ** [find_best_strategy] *)

Definition possible_strategies : list Strategy :=
  [ largest_first; random_sequential; smallest_last; independent_set;
    connected_sequential_bfs; connected_sequential_dfs;
    saturation_largest_first ].

(** [coloring.values()] *)
Definition values (coloring : Coloring) : list nat := (map_to_list coloring).*2.

(** The builtin [max]: [ValueError] on an empty sequence. *)
Definition py_max (l : list nat) : result nat :=
  match l with
  | [] => Raise ValueError
  | x :: l' => Ok (foldl Nat.max x l')
  end.

(** [max(coloring.values()) + 1] *)
Definition num_of_colors (coloring : Coloring) : result nat :=
  m ← py_max (values coloring); Ok (m + 1).

(** The locals [best_strategy] and [min_num_of_colors]; both are unbound
    until the first assignment. *)
Record best : Set := Best {
  best_strategy : Strategy;
  min_num_of_colors : nat;
}.

(** [for i, strategy in enumerate(possible_strategies)], from index [i]
    on.  [or] does not read [min_num_of_colors] when [i == 0]. *)
Fixpoint search (graph : Graph.t) (i : nat) (strategies : list Strategy)
    (locals : option best) (rng : Rng) : result (option best * Rng) :=
  match strategies with
  | [] => Ok (locals, rng)
  | strategy :: rest =>
      let '(coloring, rng) := Greedy.greedy_color graph strategy rng in
      n ← num_of_colors coloring;
      improves ←
        (if decide (i = 0) then Ok true
         else match locals with
              | Some b => Ok (bool_decide (n < min_num_of_colors b))
              | None => Raise UnboundLocalError
              end);
      search graph (S i) rest
             (if improves : bool then Some (Best strategy n) else locals) rng
  end.

Definition find_best_strategy (graph : Graph.t) (rng : Rng)
  : result (Strategy * Rng) :=
  '(locals, rng) ← search graph 0 possible_strategies None rng;
  match locals with
  | Some b => Ok (best_strategy b, rng)
  | None => Raise UnboundLocalError
  end.

(** ** [write_coloring_to_csv] *)

(** [sorted(coloring)]: the keys in ascending order. *)
Definition sorted (coloring : Coloring) : list Z :=
  merge_sort Z.le (map_to_list coloring).*1.

(** [dict([(vertex, coloring[vertex]) for vertex in sorted(coloring)])], as
    the sequence of its items. *)
Definition sorted_coloring (coloring : Coloring) : list (Z * nat) :=
  (λ vertex, (vertex, coloring !!! vertex)) <$> sorted coloring.

(** [writer.writerow] with [delimiter=" "], on fields that need no
    quoting: [plain] fields without a space, and not the row of a single
    empty field.  The quoting of the csv module is not modelled; the writer
    of [main.py] only writes the two header words and decimals. *)
Definition writerow (fields : list string) : string :=
  String.concat " " fields.

(** The lines written to the file, without their terminators. *)
Definition write_coloring_to_csv (coloring : Coloring) : list string :=
  writerow ["vertex"; "color"]%string
  :: ((λ '(vertex, color), writerow [pretty vertex; pretty color])
        <$> sorted_coloring coloring).

(** ** [main] *)

(** The file written for the file read; printing and plotting are left
    out. *)
Definition main (py_int : string → option Z) (file : list string) (rng : Rng)
  : result (list string * Rng) :=
  graph ← read_graph_from_csv py_int file;
  '(best_strategy, rng) ← find_best_strategy graph rng;
  let '(coloring, rng) := Greedy.greedy_color graph best_strategy rng in
  Ok (write_coloring_to_csv coloring, rng).

(** ** [plot_graph] *)

(** [[coloring.get(node, 0) for node in graph.nodes()]], the colours handed
    to the drawing call; the layout and the window are not modelled. *)
Definition node_color (graph : Graph.t) (coloring : Coloring) : list nat :=
  (λ node, default 0 (coloring !! node)) <$> Graph.nodes graph.

(** ** [main] with its flags *)

(** What a run leaves behind: the lines of the file written, the lines
    printed, and the colours drawn when a plot was asked for. *)
Record run : Type := Run {
  written : list string;
  printed : list string;
  drawn : option (list nat);
}.

(** [main(read_graph_from, write_colors_to, plot, verbose)] on the lines of
    the file read.  [write_coloring_to_csv] prints its message when
    [verbose]; [main] then computes the colour count again and prints it. *)
Definition main_run (py_int : string → option Z) (file : list string)
    (write_colors_to : string) (plot verbose : bool) (rng : Rng)
  : result (run * Rng) :=
  graph ← read_graph_from_csv py_int file;
  '(best_strategy, rng) ← find_best_strategy graph rng;
  let '(coloring, rng) := Greedy.greedy_color graph best_strategy rng in
  let stored :=
    if verbose then ["Stored coloring data at " +:+ write_colors_to] else [] in
  colored ←
    (if verbose
     then num_of_colors ← num_of_colors coloring;
          Ok ["Colored graph with " +:+ pretty num_of_colors +:+ " colors"]
     else Ok []);
  Ok (Run (write_coloring_to_csv coloring) (stored ++ colored)
          (if plot then Some (node_color graph coloring) else None),
      rng).

(** ** Vocabulary of the properties *)

(** No edge joins two vertices of one colour. *)
Definition proper (G : Graph.t) (colors : Coloring) : Prop :=
  ∀ u v cu cv,
    Graph.edge G u v → colors !! u = Some cu → colors !! v = Some cv → cu ≠ cv.

(** The vertices coloured are exactly those of the graph. *)
Definition covers (G : Graph.t) (colors : Coloring) : Prop :=
  ∀ u, is_Some (colors !! u) ↔ u ∈ Graph.nodes G.

(** The colours in use are exactly those below [k]. *)
Definition colors_below (k : nat) (colors : Coloring) : Prop :=
  ∀ x, (∃ v, colors !! v = Some x) ↔ x < k.

(** The colours from [c] on among [used]. *)
Definition used_from (c : nat) (used : list nat) : gset nat :=
  filter (λ x, c ≤ x) (list_to_set used : gset nat).

(** The colourings the search computes, in the order it computes them. *)
Fixpoint trials (graph : Graph.t) (strategies : list Strategy) (rng : Rng)
  : list (Strategy * Coloring) :=
  match strategies with
  | [] => []
  | strategy :: rest =>
      let '(coloring, rng) := Greedy.greedy_color graph strategy rng in
      (strategy, coloring) :: trials graph rest rng
  end.

(** The colour count of the [j]-th colouring of the search is at least
    [n], and more than [n] when [j] is before [i]. *)
Definition beats (ts : list (Strategy * Coloring)) (n i : nat) : Prop :=
  ∀ j s c, ts !! j = Some (s, c) →
    ∃ n', num_of_colors c = Ok n' ∧ n ≤ n' ∧ (j < i → n < n').

(** A character the reader takes as it stands: an ASCII character other
    than NUL, the line ends LF and CR, and the double quote. *)
Definition plain_char (c : ascii) : bool :=
  let n := nat_of_ascii c in
  bool_decide (n < 128 ∧ n ∉ [0; 10; 13; 34]).

Fixpoint plain_chars (s : string) : bool :=
  match s with
  | EmptyString => true
  | String c s' => plain_char c && plain_chars s'
  end.

(** A line of plain characters, no longer than the field limit of the csv
    module: on such lines the reader only splits at the delimiter. *)
Definition plain (line : string) : Prop :=
  plain_chars line = true
  ∧ (N.of_nat (String.length line) ≤ 131072)%N.

Global Instance plain_dec line : Decision (plain line).
Proof. unfold plain. apply _. Defined.

(** A string without a space, so that it is one field of a row. *)
Fixpoint spaceless (s : string) : Prop :=
  match s with
  | EmptyString => True
  | String c s' => c ≠ " "%char ∧ spaceless s'
  end.

(** The line is two integers: two strings without a space, joined by one
    space, that [int] takes for [x] and [y]. *)
Definition edge_line (py_int : string → option Z) (line : string) (x y : Z)
  : Prop :=
  ∃ a b, line = a +:+ " " +:+ b ∧ spaceless a ∧ spaceless b
         ∧ py_int a = Some x ∧ py_int b = Some y.

(** No adjacency list holds a vertex twice. *)
Definition simple (G : Graph.t) : Prop := ∀ u, NoDup (Graph.neighbors G u).

(** ** Graphs used as examples *)

(** The triangle of the design document's scenario. *)
Definition triangle_file : list string :=
  ["vertex1 vertex2"; "1 2"; "2 3"; "3 1"]%string.

Definition triangle : Graph.t := [(1, [2; 3]); (2, [1; 3]); (3, [2; 1])]%Z.

(** A cycle on six vertices whose edges are listed so that the vertices
    enter the graph in the order 1, 2, 4, 5, 3, 6. *)
Definition hexagon_file : list string :=
  ["vertex1 vertex2"; "1 2"; "4 5"; "2 3"; "3 4"; "5 6"; "6 1"]%string.

Definition hexagon : Graph.t :=
  [(1, [2; 6]); (2, [1; 3]); (4, [5; 3]); (5, [4; 6]); (3, [2; 4]);
   (6, [5; 1])]%Z.

(** One vertex joined to itself. *)
Definition loop_file : list string := ["vertex1 vertex2"; "1 1"]%string.

Definition loop : Graph.t := [(1, [1])]%Z.

(** * Properties *)

(** ** The graph object *)

Module GraphFacts.

Import Graph.

Lemma nodes_app (G H : t) : nodes (G ++ H) = nodes G ++ nodes H.
Proof. apply fmap_app. Qed.

Lemma neighbors_not_node G u : u ∉ nodes G → neighbors G u = [].
Proof.
  induction G as [|[w ns] G IH]; simpl; [done|].
  intros Hu. apply not_elem_of_cons in Hu as [? ?].
  case_decide; [congruence | auto].
Qed.

Lemma neighbors_node G u v : v ∈ neighbors G u → u ∈ nodes G.
Proof.
  intros Hv. destruct (decide (u ∈ nodes G)) as [|Hn]; [done|].
  rewrite (neighbors_not_node _ _ Hn) in Hv. by apply elem_of_nil in Hv.
Qed.

Lemma neighbors_app_l G H u :
  u ∈ nodes G → neighbors (G ++ H) u = neighbors G u.
Proof.
  induction G as [|[w ns] G IH]; simpl.
  - intros Hu. by apply elem_of_nil in Hu.
  - intros Hu. case_decide; [done|].
    apply elem_of_cons in Hu as [?|?]; [congruence | auto].
Qed.

Lemma neighbors_app_r G H u :
  u ∉ nodes G → neighbors (G ++ H) u = neighbors H u.
Proof.
  induction G as [|[w ns] G IH]; simpl; [done|].
  intros Hu. apply not_elem_of_cons in Hu as [? ?].
  case_decide; [congruence | auto].
Qed.

Lemma nodes_add_node u G :
  nodes (add_node u G) = if decide (u ∈ nodes G) then nodes G else nodes G ++ [u].
Proof. unfold add_node. case_decide; [done|]. by rewrite nodes_app. Qed.

Lemma elem_of_nodes_add_node u G x :
  x ∈ nodes (add_node u G) ↔ x ∈ nodes G ∨ x = u.
Proof.
  rewrite nodes_add_node. case_decide.
  - split; [auto|]. by intros [?| ->].
  - rewrite elem_of_app, list_elem_of_singleton. done.
Qed.

Lemma neighbors_add_node u G x :
  neighbors (add_node u G) x = neighbors G x.
Proof.
  unfold add_node. case_decide as Hu; [done|].
  destruct (decide (x ∈ nodes G)) as [Hx|Hx].
  - by apply neighbors_app_l.
  - rewrite neighbors_app_r by done. rewrite (neighbors_not_node G) by done.
    simpl. by case_decide.
Qed.

Lemma add_node_id u G : u ∈ nodes G → add_node u G = G.
Proof. unfold add_node. intros. by case_decide. Qed.

Lemma nodes_link u v G : nodes (link u v G) = nodes G.
Proof.
  induction G as [|[w ns] G IH]; simpl; [done|].
  case_decide; [done|]. unfold nodes in *. rewrite !fmap_cons. by f_equal.
Qed.

Lemma link_id u v G : v ∈ neighbors G u → link u v G = G.
Proof.
  induction G as [|[w ns] G IH]; simpl; [done|].
  case_decide; intros Hv.
  - by rewrite decide_True.
  - by rewrite IH.
Qed.

Lemma elem_of_neighbors_link u v G x w :
  w ∈ neighbors (link u v G) x
  ↔ w ∈ neighbors G x ∨ (x = u ∧ w = v ∧ u ∈ nodes G).
Proof.
  induction G as [|[y ns] G IH]; simpl.
  - rewrite elem_of_nil. split; [tauto|].
    intros [[]|(_ & _ & Hn)]. by apply elem_of_nil in Hn.
  - destruct (decide (y = u)) as [->|Hy]; simpl.
    + destruct (decide (u = x)) as [->|Hx].
      * case_decide.
        -- split; [auto|]. intros [?|(_ & -> & _)]; done.
        -- rewrite elem_of_app, list_elem_of_singleton.
           split; [intros [?| ->]; [auto|] | intros [?|(_ & -> & _)]; auto].
           right. split_and!; [done..|]. apply elem_of_cons; auto.
      * split; [auto|]. intros [?|(-> & _)]; done.
    + destruct (decide (y = x)) as [->|Hx].
      * split; [auto|]. intros [?|(-> & _)]; done.
      * rewrite IH. split; [|intros [?|(-> & -> & Hn)]; [auto|]].
        -- intros [?|(-> & -> & ?)]; [auto|].
           right. split_and!; [done..|]. apply elem_of_cons; auto.
        -- right. split_and!; [done..|].
           apply elem_of_cons in Hn as [?|?]; [congruence | done].
Qed.

Lemma nodes_add_edge u v G x :
  x ∈ nodes (add_edge u v G) ↔ x ∈ nodes G ∨ x = u ∨ x = v.
Proof.
  unfold add_edge. rewrite !nodes_link, !elem_of_nodes_add_node. tauto.
Qed.

(** The edges after [add_edge]: the old ones and the new one, both ways. *)
Lemma elem_of_neighbors_add_edge u v G x w :
  w ∈ neighbors (add_edge u v G) x
  ↔ w ∈ neighbors G x ∨ (x = u ∧ w = v) ∨ (x = v ∧ w = u).
Proof.
  unfold add_edge.
  rewrite !elem_of_neighbors_link, !nodes_link, !neighbors_add_node,
    !elem_of_nodes_add_node.
  intuition auto.
Qed.

Lemma NoDup_nodes_add_node u G : NoDup (nodes G) → NoDup (nodes (add_node u G)).
Proof.
  intros Hnd. rewrite nodes_add_node. case_decide; [done|].
  apply NoDup_app. split_and!; [done| |apply NoDup_singleton].
  intros x Hx ->%list_elem_of_singleton. done.
Qed.

Lemma wf_empty : wf empty.
Proof.
  split; [apply NoDup_nil_2|]. intros u v Hv. by apply elem_of_nil in Hv.
Qed.

Lemma wf_add_edge u v G : wf G → wf (add_edge u v G).
Proof.
  intros [Hnd Hsym]. split.
  - unfold add_edge. rewrite !nodes_link. by do 2 apply NoDup_nodes_add_node.
  - intros x w. rewrite !elem_of_neighbors_add_edge.
    intros [?%Hsym|[[-> ->]|[-> ->]]]; auto.
Qed.

(** Adding an edge that is there already changes nothing, not even the
    insertion order. *)
Lemma add_edge_id u v G :
  v ∈ neighbors G u → u ∈ neighbors G v → add_edge u v G = G.
Proof.
  intros Huv Hvu. unfold add_edge.
  rewrite (add_node_id u) by eauto using neighbors_node.
  rewrite (add_node_id v) by eauto using neighbors_node.
  rewrite (link_id u v) by done. by apply link_id.
Qed.

End GraphFacts.

(** ** [read_graph_from_csv] *)

Section LoaderFacts.

Variable py_int : string → option Z.

Lemma unpack_edge_of_line x :
  unpack_edge py_int (csv_row x)
  = match edge_of_line py_int x with
    | Some e => Ok e
    | None => Raise ValueError
    end.
Proof.
  unfold edge_of_line, unpack_edge.
  destruct (csv_row x) as [|a [|b [|c r]]]; try done.
  destruct (py_int a), (py_int b); done.
Qed.

Lemma read_rows_cons x lines G :
  read_rows py_int (csv_reader (x :: lines)) G
  = match edge_of_line py_int x with
    | Some e => read_rows py_int (csv_reader lines) (Graph.add_edge e.1 e.2 G)
    | None => Raise ValueError
    end.
Proof.
  change (csv_reader (x :: lines)) with (csv_row x :: csv_reader lines).
  cbn [read_rows]. rewrite unpack_edge_of_line.
  by destruct (edge_of_line py_int x) as [[a b]|].
Qed.

(** The loop over the rows either adds every edge, in order, or raises at
    the first line that is not two integers. *)
Lemma read_rows_mapM lines G :
  read_rows py_int (csv_reader lines) G
  = match mapM (edge_of_line py_int) lines with
    | Some es => Ok (add_edges es G)
    | None => Raise ValueError
    end.
Proof.
  revert G. induction lines as [|x lines IH]; intros G; [done|].
  rewrite read_rows_cons. cbn [mapM].
  destruct (edge_of_line py_int x) as [[a b]|]; [|done].
  rewrite IH. by destruct (mapM _ lines).
Qed.

Lemma elem_of_neighbors_add_edges es G x w :
  w ∈ Graph.neighbors (add_edges es G) x
  ↔ w ∈ Graph.neighbors G x ∨ (x, w) ∈ es ∨ (w, x) ∈ es.
Proof.
  revert G. induction es as [|[a b] es IH]; intros G; simpl.
  - rewrite !elem_of_nil. tauto.
  - unfold add_edges in *. simpl. rewrite IH.
    rewrite GraphFacts.elem_of_neighbors_add_edge, !elem_of_cons.
    split.
    + intros [[?|[[-> ->]|[-> ->]]]|[?|?]]; auto.
    + intros [?|[[[= -> ->]|?]|[[= -> ->]|?]]]; auto.
Qed.

Lemma wf_add_edges es G : Graph.wf G → Graph.wf (add_edges es G).
Proof.
  revert G. induction es as [|[a b] es IH]; intros G HG; [done|].
  apply IH. by apply GraphFacts.wf_add_edge.
Qed.

Lemma read_graph_from_csv_cons hdr lines :
  read_graph_from_csv py_int (hdr :: lines)
  = read_rows py_int (csv_reader lines) Graph.empty.
Proof. reflexivity. Qed.

(** Every graph the loader returns is well formed. *)
Lemma wf_read_graph_from_csv file G :
  read_graph_from_csv py_int file = Ok G → Graph.wf G.
Proof.
  destruct file as [|hdr lines]; [done|].
  rewrite read_graph_from_csv_cons, read_rows_mapM. destruct (mapM _ lines); [|done].
  intros [= <-]. apply wf_add_edges, GraphFacts.wf_empty.
Qed.

(** Dropping the lines that repeat an edge the graph has already does not
    change what the loop builds. *)
Lemma read_rows_drop_duplicates lines seen G :
  (∀ a b, (a, b) ∈ seen →
          b ∈ Graph.neighbors G a ∧ a ∈ Graph.neighbors G b) →
  read_rows py_int (csv_reader (drop_duplicates py_int seen lines)) G
  = read_rows py_int (csv_reader lines) G.
Proof.
  revert seen G. induction lines as [|x lines IH]; intros seen G Hseen; [done|].
  cbn [drop_duplicates]. rewrite (read_rows_cons x lines).
  destruct (edge_of_line py_int x) as [[a b]|] eqn:Hx.
  - case_decide as Hdup.
    + cbn [fst snd].
      rewrite GraphFacts.add_edge_id; [by apply IH|..];
        destruct Hdup as [Hd|Hd]; apply Hseen in Hd; tauto.
    + rewrite read_rows_cons, Hx.
      apply IH. intros a' b'.
      rewrite elem_of_cons, !GraphFacts.elem_of_neighbors_add_edge.
      intros [[= -> ->]|Hin]; [auto|].
      apply Hseen in Hin. tauto.
  - by rewrite read_rows_cons, Hx.
Qed.

(** C10: on a file with no line at all the loader raises at
    [next(reader)]; a file it loads has a first line. *)
Theorem read_graph_from_csv_empty_file :
  read_graph_from_csv py_int [] = Raise StopIteration
  ∧ ∀ file G, read_graph_from_csv py_int file = Ok G →
              ∃ hdr lines, file = hdr :: lines.
Proof.
  split; [done|]. intros [|hdr lines] G; [done|]. eauto.
Qed.

End LoaderFacts.

(** ** The greedy colouring engine *)

Module GreedyFacts.
Import Graph Greedy.

Lemma size_list_to_set_le (l : list nat) :
  size (list_to_set l : gset nat) ≤ length l.
Proof.
  induction l as [|x l IH].
  - by rewrite list_to_set_nil, size_empty.
  - rewrite list_to_set_cons, size_union_alt, size_singleton. cbn [length].
    assert (list_to_set l ∖ {[x]} ⊆ (list_to_set l : gset nat)) as Hsub.
    { intros y Hy. by apply elem_of_difference in Hy as [? _]. }
    apply subseteq_size in Hsub. lia.
Qed.

Lemma first_free_spec fuel c used :
  size (used_from c used) ≤ fuel →
  (first_free fuel c used ∉ used)
  ∧ c ≤ first_free fuel c used
  ∧ (∀ x, c ≤ x < first_free fuel c used → x ∈ used).
Proof.
  revert c. induction fuel as [|fuel IH]; intros c Hsz; simpl.
  - split_and!; [|lia|lia].
    intros Hc. assert (c ∈ used_from c used) as Hin.
    { apply elem_of_filter. split; [lia|]. by apply elem_of_list_to_set. }
    assert (used_from c used ≡ ∅) as Hempty by (apply size_empty_inv; lia).
    apply Hempty in Hin. by apply not_elem_of_empty in Hin.
  - case_decide as Hc; [|split_and!; [done|lia|lia]].
    destruct (IH (S c)) as (Hfree & Hle & Hbelow).
    + assert (used_from (S c) used ⊂ used_from c used) as Hsub.
      { split.
        - intros x. unfold used_from. rewrite !elem_of_filter. intros [? ?].
          split; [lia|done].
        - intros Hsup. specialize (Hsup c). unfold used_from in Hsup.
          rewrite !elem_of_filter, !elem_of_list_to_set in Hsup.
          destruct Hsup; [split; [lia|done]|]. lia. }
      apply subset_size in Hsub. lia.
    + split_and!; [done|lia|].
      intros x Hx. destruct (decide (x = c)) as [->|?]; [done|].
      apply Hbelow. lia.
Qed.

(** The colour chosen is not taken, and every smaller one is. *)
Lemma smallest_free_spec used :
  (smallest_free used ∉ used) ∧ (∀ x, x < smallest_free used → x ∈ used).
Proof.
  destruct (first_free_spec (length used) 0 used) as (Hfree & _ & Hbelow).
  - etrans; [|apply size_list_to_set_le].
    apply subseteq_size. intros x. unfold used_from. rewrite elem_of_filter. tauto.
  - split; [done|]. intros x Hx. apply Hbelow. unfold smallest_free in Hx. lia.
Qed.

Lemma elem_of_nbr_colors G colors u c :
  c ∈ nbr_colors G colors u ↔ ∃ v, v ∈ neighbors G u ∧ colors !! v = Some c.
Proof. unfold nbr_colors. by rewrite list_elem_of_omap. Qed.

Lemma lookup_color_node G colors u v :
  color_node G colors u !! v
  = if decide (u = v) then Some (smallest_free (nbr_colors G colors u))
    else colors !! v.
Proof. unfold color_node. apply lookup_insert. Qed.

(** *** One greedy step *)

Lemma color_node_proper G colors u :
  symmetric G → loop_free G → proper G colors → proper G (color_node G colors u).
Proof.
  intros Hsym Hloop Hp x y cx cy Hxy. unfold edge in Hxy.
  rewrite !lookup_color_node.
  destruct (smallest_free_spec (nbr_colors G colors u)) as [Hfree _].
  destruct (decide (u = x)) as [Ex|Hx], (decide (u = y)) as [Ey|Hy];
    try subst x; try subst y.
  - by destruct (Hloop u).
  - intros [= <-] Hcy Heq. apply Hfree. rewrite Heq.
    apply elem_of_nbr_colors. eauto.
  - intros Hcx [= <-] Heq. apply Hfree. rewrite <- Heq.
    apply elem_of_nbr_colors. eauto.
  - by apply Hp.
Qed.

Lemma color_node_below G colors u k :
  colors !! u = None → colors_below k colors →
  ∃ k', k ≤ k' ∧ colors_below k' (color_node G colors u)
        ∧ (colors = ∅ → k' = 1).
Proof.
  intros Hu Hk.
  destruct (smallest_free_spec (nbr_colors G colors u)) as [_ Hsmall].
  set (c := smallest_free (nbr_colors G colors u)) in *.
  assert (c ≤ k) as Hck.
  { destruct (decide (c = 0)) as [|Hc0]; [lia|].
    assert (c - 1 < k); [|lia]. apply Hk.
    assert (c - 1 ∈ nbr_colors G colors u) as Hin by (apply Hsmall; lia).
    apply elem_of_nbr_colors in Hin as (v & _ & Hv). eauto. }
  exists (k `max` S c). split_and!; [lia| |].
  - intros x. split.
    + intros [v Hv]. rewrite lookup_color_node in Hv. fold c in Hv.
      case_decide; [simplify_eq; lia|].
      assert (x < k) by (apply Hk; eauto). lia.
    + intros Hx. destruct (decide (x = c)) as [->|Hne].
      * exists u. rewrite lookup_color_node. by rewrite decide_True.
      * destruct (Hk x) as [_ [v Hv]]; [lia|].
        exists v. rewrite lookup_color_node.
        case_decide; [congruence|done].
  - intros ->. assert (k = 0) as ->.
    { destruct k; [done|]. destruct (Hk 0) as [_ [v Hv]]; [lia|].
      by rewrite lookup_empty in Hv. }
    assert (c = 0); [|lia].
    destruct (decide (c = 0)) as [|Hc0]; [done|].
    assert (0 ∈ nbr_colors G ∅ u) as Hin by (apply Hsmall; lia).
    apply elem_of_nbr_colors in Hin as (v & _ & Hv).
    by rewrite lookup_empty in Hv.
Qed.

(** *** The greedy pass over an order *)

Lemma foldl_color_node_proper G order colors :
  symmetric G → loop_free G → proper G colors →
  proper G (foldl (color_node G) colors order).
Proof.
  intros Hsym Hloop. revert colors.
  induction order as [|u order IH]; intros colors Hp; [done|].
  simpl. by apply IH, color_node_proper.
Qed.

Lemma foldl_color_node_lookup G order colors v :
  is_Some (foldl (color_node G) colors order !! v)
  ↔ is_Some (colors !! v) ∨ v ∈ order.
Proof.
  revert colors. induction order as [|u order IH]; intros colors; simpl.
  - rewrite elem_of_nil. tauto.
  - rewrite IH, lookup_color_node, elem_of_cons.
    case_decide; subst; [|intuition congruence].
    split; [auto|]. intros _. left. eauto.
Qed.

Lemma foldl_color_node_below G order colors k :
  NoDup order → (∀ u, u ∈ order → colors !! u = None) →
  colors_below k colors →
  ∃ k', k ≤ k' ∧ colors_below k' (foldl (color_node G) colors order).
Proof.
  intros Hnd. revert colors k.
  induction Hnd as [|u order Hu Hnd IH]; intros colors k Hfresh Hk; simpl.
  - eauto.
  - destruct (color_node_below G colors u k) as (k1 & Hk1 & Hbelow & _);
      [apply Hfresh; left|done|].
    destruct (IH (color_node G colors u) k1) as (k' & ? & ?); [|done|].
    + intros v Hv. rewrite lookup_color_node.
      case_decide; [congruence|]. apply Hfresh. by right.
    + exists k'. split; [lia|done].
Qed.

(** *** Orderings by selection *)

Lemma filter_ne_Permutation (u : Z) (rem : list Z) :
  NoDup rem → u ∈ rem → u :: filter (λ x, x ≠ u) rem ≡ₚ rem.
Proof.
  induction 1 as [|y rem Hy Hnd IH]; intros Hu.
  - by apply elem_of_nil in Hu.
  - rewrite filter_cons. case_decide as Hyu.
    + apply elem_of_cons in Hu as [?|Hu]; [congruence|].
      rewrite Permutation_swap. by rewrite IH.
    + subst y. f_equiv.
      clear IH Hu Hnd. induction rem as [|z rem IH]; [done|].
      apply not_elem_of_cons in Hy as [? ?].
      rewrite filter_cons, decide_True by done. f_equiv. auto.
Qed.

Section select.
Context {St : Type}.
Variable pick : St → list Z → list Z → option Z.
Variable upd : St → Z → St.
Hypothesis pick_elem : ∀ s vis rem u, pick s vis rem = Some u → u ∈ rem.
Hypothesis pick_some : ∀ s vis rem, rem ≠ [] → is_Some (pick s vis rem).

(** Given enough rounds, the loop visits every remaining vertex once
    and threads the state through the visits. *)
Lemma select_loop_spec n s vis rem :
  NoDup rem → length rem ≤ n →
  ∃ picked, select_loop pick upd n s vis rem
            = (vis ++ picked, foldl upd s picked)
            ∧ picked ≡ₚ rem.
Proof.
  revert s vis rem. induction n as [|n IH]; intros s vis rem Hnd Hlen.
  - destruct rem; [|simpl in Hlen; lia].
    exists []. by rewrite app_nil_r.
  - simpl. destruct (pick s vis rem) as [u|] eqn:Hpick.
    + pose proof (pick_elem _ _ _ _ Hpick) as Hu.
      pose proof (filter_ne_Permutation u rem Hnd Hu) as Hperm.
      destruct (IH (upd s u) (vis ++ [u]) (filter (λ x, x ≠ u) rem))
        as (picked & -> & Hpicked).
      * by apply NoDup_filter.
      * apply Permutation_length in Hperm. simpl in Hperm. lia.
      * exists (u :: picked). rewrite <- app_assoc. split; [done|].
        by rewrite Hpicked.
    + destruct rem as [|x rem].
      * exists []. by rewrite app_nil_r.
      * destruct (pick_some s vis (x :: rem)) as [? ?]; [done|congruence].
Qed.

Lemma select_order_spec G s :
  NoDup (nodes G) →
  ∃ order, select_order pick upd G s = (order, foldl upd s order)
           ∧ order ≡ₚ nodes G.
Proof.
  intros Hnd. unfold select_order.
  destruct (select_loop_spec (length (nodes G)) s [] (nodes G))
    as (picked & -> & ?); [done..|]. eauto.
Qed.
End select.

Lemma first_best_elem better l u : first_best better l = Some u → u ∈ l.
Proof.
  revert u. induction l as [|x l IH]; intros u; simpl; [done|].
  destruct (first_best better l) as [y|].
  - destruct (better y x); intros [= <-]; [right; auto | left].
  - intros [= <-]. left.
Qed.

Lemma first_best_some better l : l ≠ [] → is_Some (first_best better l).
Proof.
  destruct l as [|x l]; [done|]. intros _. simpl.
  destruct (first_best better l); [destruct (better _ _)|]; eauto.
Qed.

Lemma pick_random_elem rng vis rem u : pick_random rng vis rem = Some u → u ∈ rem.
Proof. apply list_elem_of_lookup_2. Qed.

Lemma pick_random_some rng vis rem : rem ≠ [] → is_Some (pick_random rng vis rem).
Proof.
  intros Hrem. apply lookup_lt_is_Some. apply Nat.mod_upper_bound.
  by destruct rem.
Qed.

Lemma pick_connected_elem dfs G s vis rem u :
  pick_connected dfs G s vis rem = Some u → u ∈ rem.
Proof.
  unfold pick_connected.
  destruct (_ ≫= nbrs_in G rem) as [|w ws] eqn:Hws.
  - destruct rem; intros [= <-]. left.
  - intros [= <-].
    assert (w ∈ w :: ws) as Hw by left. rewrite <- Hws in Hw.
    apply list_elem_of_bind in Hw as (v & Hw & _).
    by apply list_elem_of_filter in Hw as [? _].
Qed.

Lemma pick_connected_some dfs G s vis rem :
  rem ≠ [] → is_Some (pick_connected dfs G s vis rem).
Proof.
  intros Hrem. unfold pick_connected.
  destruct (_ ≫= nbrs_in G rem); [|eauto]. destruct rem; [done|]. simpl. eauto.
Qed.

Lemma insert_desc_Permutation key x l : insert_desc key x l ≡ₚ x :: l.
Proof.
  induction l as [|y l IH]; simpl; [done|].
  case_decide; [done|]. by rewrite IH, Permutation_swap.
Qed.

Lemma sort_desc_Permutation key l : sort_desc key l ≡ₚ l.
Proof.
  unfold sort_desc. rewrite <- (app_nil_l l) at 2.
  generalize (@nil Z) as acc. induction l as [|x l IH]; intros acc; simpl.
  - by rewrite app_nil_r.
  - rewrite IH, insert_desc_Permutation. apply Permutation_middle.
Qed.

(** Every strategy but independent_set is a greedy pass over some
    arrangement of the vertices. *)
Lemma greedy_color_order G strategy rng :
  NoDup (nodes G) → strategy ≠ independent_set →
  ∃ order, (greedy_color G strategy rng).1 = greedy_over G order
           ∧ order ≡ₚ nodes G.
Proof.
  intros Hnd Hs. destruct strategy; simpl; try done.
  - eexists. split; [done|]. apply sort_desc_Permutation.
  - unfold order_random_sequential.
    destruct (select_order_spec pick_random (λ rng _, tl rng)
                pick_random_elem pick_random_some G rng Hnd)
      as (order & -> & ?). eauto.
  - unfold order_smallest_last.
    destruct (select_order_spec (pick_smallest G) (λ s _, s)) with (G := G) (s := ())
      as (order & -> & ?); [| |done|].
    + intros ????. apply first_best_elem.
    + intros ???. apply first_best_some.
    + eexists. split; [done|]. simpl. by rewrite reverse_Permutation.
  - unfold order_connected_sequential.
    destruct (select_order_spec (pick_connected false G) (λ s _, s))
      with (G := G) (s := ()) as (order & -> & ?);
      eauto using pick_connected_elem, pick_connected_some.
  - unfold order_connected_sequential.
    destruct (select_order_spec (pick_connected true G) (λ s _, s))
      with (G := G) (s := ()) as (order & -> & ?);
      eauto using pick_connected_elem, pick_connected_some.
  - unfold color_saturation_largest_first.
    destruct (select_order_spec (pick_saturated G) (color_node G))
      with (G := G) (s := (∅ : Coloring)) as (order & -> & ?); [| |done|].
    + intros ????. apply first_best_elem.
    + intros ???. apply first_best_some.
    + eauto.
Qed.

(** *** independent_set *)

Lemma lookup_paint k colors vs v :
  paint k colors vs !! v = if decide (v ∈ vs) then Some k else colors !! v.
Proof.
  unfold paint. revert colors.
  induction vs as [|u vs IH]; intros colors; cbn [foldl].
  - destruct (decide (v ∈ [])) as [Hv|]; [by apply elem_of_nil in Hv|done].
  - rewrite IH. destruct (decide (v ∈ vs)) as [Hv|Hv].
    + rewrite decide_True by (by right). done.
    + rewrite lookup_insert. destruct (decide (u = v)) as [->|Hne].
      * rewrite decide_True by left. done.
      * rewrite decide_False; [done|].
        intros [?|?]%elem_of_cons; congruence.
Qed.

Lemma mis_mono G rem acc x : x ∈ acc → x ∈ foldl (extend_independent G) acc rem.
Proof.
  revert acc. induction rem as [|u rem IH]; intros acc Hx; [done|].
  simpl. apply IH. unfold extend_independent. case_decide; [done|].
  apply elem_of_app. auto.
Qed.

Lemma mis_subset G rem acc x :
  x ∈ foldl (extend_independent G) acc rem → x ∈ acc ∨ x ∈ rem.
Proof.
  revert acc. induction rem as [|u rem IH]; intros acc; simpl; [auto|].
  intros [Hx|Hx]%IH; [|right; by right].
  unfold extend_independent in Hx. case_decide; [auto|].
  apply elem_of_app in Hx as [?| ->%list_elem_of_singleton]; [auto|].
  right. left.
Qed.

Lemma maximal_independent_set_subset G rem x :
  x ∈ maximal_independent_set G rem → x ∈ rem.
Proof.
  intros [Hx|Hx]%mis_subset; [|done]. by apply elem_of_nil in Hx.
Qed.

Lemma maximal_independent_set_head G x rem :
  x ∈ maximal_independent_set G (x :: rem).
Proof.
  unfold maximal_independent_set. simpl. apply mis_mono.
  unfold extend_independent. rewrite decide_False; [left|].
  intros (v & _ & Hv)%Exists_exists. by apply elem_of_nil in Hv.
Qed.

Lemma mis_independent G rem acc :
  symmetric G → loop_free G →
  (∀ u v, u ∈ acc → v ∈ acc → v ∉ neighbors G u) →
  ∀ u v, u ∈ foldl (extend_independent G) acc rem → v ∈ foldl (extend_independent G) acc rem →
         v ∉ neighbors G u.
Proof.
  intros Hsym Hloop. revert acc.
  induction rem as [|w rem IH]; intros acc Hacc; [done|].
  simpl. apply IH. unfold extend_independent. case_decide as Hex; [done|].
  intros u v Hu Hv Huv. apply Hex. apply Exists_exists.
  apply elem_of_app in Hu as [Hu|Hu%list_elem_of_singleton];
    apply elem_of_app in Hv as [Hv|Hv%list_elem_of_singleton]; subst.
  - by destruct (Hacc u v).
  - apply Hsym in Huv. eauto.
  - eauto.
  - by destruct (Hloop w).
Qed.

Lemma maximal_independent_set_independent G rem u v :
  symmetric G → loop_free G →
  u ∈ maximal_independent_set G rem → v ∈ maximal_independent_set G rem →
  v ∉ neighbors G u.
Proof.
  intros Hsym Hloop. apply mis_independent; [done..|].
  intros ? ? Hu. by apply elem_of_nil in Hu.
Qed.

Lemma independent_set_loop_lookup G n k rem colors v :
  length rem ≤ n →
  is_Some (independent_set_loop G n k rem colors !! v)
  ↔ is_Some (colors !! v) ∨ v ∈ rem.
Proof.
  revert k rem colors. induction n as [|n IH]; intros k rem colors Hlen.
  - destruct rem; [|simpl in Hlen; lia]. simpl. rewrite elem_of_nil. tauto.
  - destruct rem as [|x rem]; simpl; [rewrite elem_of_nil; tauto|].
    set (I := maximal_independent_set G (x :: rem)).
    assert (x ∈ I) as HxI by apply maximal_independent_set_head.
    rewrite filter_cons, decide_False by tauto.
    rewrite IH.
    + rewrite lookup_paint, list_elem_of_filter.
      destruct (decide (v ∈ I)) as [HvI|HvI].
      * apply maximal_independent_set_subset in HvI. split; [auto|].
        intros _. left. eauto.
      * rewrite elem_of_cons. split; [tauto|].
        intros [?|[->|?]]; [auto|done|auto].
    + pose proof (length_filter (λ y, y ∉ I) rem). simpl in Hlen. lia.
Qed.

Lemma independent_set_loop_below G n k rem colors :
  length rem ≤ n → (∀ u, u ∈ rem → colors !! u = None) →
  colors_below k colors →
  ∃ k', k ≤ k' ∧ colors_below k' (independent_set_loop G n k rem colors).
Proof.
  revert k rem colors. induction n as [|n IH]; intros k rem colors Hlen Hfresh Hk.
  - eauto.
  - destruct rem as [|x rem]; simpl; [eauto|].
    set (I := maximal_independent_set G (x :: rem)).
    assert (x ∈ I) as HxI by apply maximal_independent_set_head.
    rewrite filter_cons, decide_False by tauto.
    destruct (IH (S k) (filter (λ y, y ∉ I) rem) (paint k colors I))
      as (k' & ? & ?).
    + pose proof (length_filter (λ y, y ∉ I) rem). simpl in Hlen. lia.
    + intros u [HuI Hu]%list_elem_of_filter. rewrite lookup_paint.
      rewrite decide_False by done. apply Hfresh. by right.
    + intros c. split.
      * intros [v Hv]. rewrite lookup_paint in Hv.
        case_decide; [simplify_eq; lia|].
        assert (c < k) by (apply Hk; eauto). lia.
      * intros Hc. destruct (decide (c = k)) as [->|Hne].
        -- exists x. by rewrite lookup_paint, decide_True.
        -- destruct (Hk c) as [_ [v Hv]]; [lia|]. exists v.
           rewrite lookup_paint. case_decide as HvI; [|done].
           apply maximal_independent_set_subset, Hfresh in HvI. congruence.
    + exists k'. split; [lia|done].
Qed.

Lemma independent_set_loop_proper G n k rem colors :
  symmetric G → loop_free G →
  proper G colors → (∀ v c, colors !! v = Some c → c < k) →
  proper G (independent_set_loop G n k rem colors).
Proof.
  intros Hsym Hloop. revert k rem colors.
  induction n as [|n IH]; intros k rem colors Hp Hk; [done|].
  destruct rem as [|x rem]; [done|]. cbn [independent_set_loop].
  set (I := maximal_independent_set G (x :: rem)).
  apply IH.
  - intros u v cu cv Huv. rewrite !lookup_paint.
    destruct (decide (u ∈ I)) as [Hu|Hu], (decide (v ∈ I)) as [Hv|Hv].
    + destruct (maximal_independent_set_independent G (x :: rem) u v); done.
    + intros [= <-] Hcv%Hk. lia.
    + intros Hcu%Hk [= <-]. lia.
    + by apply Hp.
  - intros v c. rewrite lookup_paint. case_decide.
    + intros [= <-]. lia.
    + intros ?%Hk. lia.
Qed.

(** *** What every strategy guarantees *)

Lemma colors_below_empty : colors_below 0 (∅ : Coloring).
Proof.
  intros x. split; [|lia]. intros [v Hv]. by rewrite lookup_empty in Hv.
Qed.

Lemma proper_empty G : proper G ∅.
Proof. intros u v cu cv _ Hu. by rewrite lookup_empty in Hu. Qed.

Lemma greedy_color_covers G strategy rng :
  NoDup (nodes G) → covers G (greedy_color G strategy rng).1.
Proof.
  intros Hnd u. destruct (decide (strategy = independent_set)) as [->|Hs].
  - simpl. unfold color_independent_set.
    rewrite independent_set_loop_lookup by done.
    rewrite lookup_empty. split; [intros [[? [=]]|?]; done | auto].
  - destruct (greedy_color_order G strategy rng Hnd Hs) as (order & -> & Hperm).
    unfold greedy_over. rewrite foldl_color_node_lookup, lookup_empty, Hperm.
    split; [intros [[? [=]]|?]; done | auto].
Qed.

Lemma greedy_color_below G strategy rng :
  NoDup (nodes G) → ∃ k, colors_below k (greedy_color G strategy rng).1.
Proof.
  intros Hnd. destruct (decide (strategy = independent_set)) as [->|Hs].
  - simpl. unfold color_independent_set.
    destruct (independent_set_loop_below G (length (nodes G)) 0 (nodes G) ∅)
      as (k & _ & ?); eauto using colors_below_empty, lookup_empty.
  - destruct (greedy_color_order G strategy rng Hnd Hs) as (order & -> & Hperm).
    destruct (foldl_color_node_below G order ∅ 0) as (k & _ & ?);
      eauto using colors_below_empty, lookup_empty.
    by rewrite Hperm.
Qed.

Lemma greedy_color_proper G strategy rng :
  wf G → loop_free G → proper G (greedy_color G strategy rng).1.
Proof.
  intros [Hnd Hsym] Hloop.
  destruct (decide (strategy = independent_set)) as [->|Hs].
  - simpl. apply independent_set_loop_proper; auto using proper_empty.
    intros v c Hv. by rewrite lookup_empty in Hv.
  - destruct (greedy_color_order G strategy rng Hnd Hs) as (order & -> & Hperm).
    apply foldl_color_node_proper; auto using proper_empty.
Qed.

End GreedyFacts.

(** ** Counting colours *)

Lemma elem_of_values (c : Coloring) x : x ∈ values c ↔ ∃ v, c !! v = Some x.
Proof.
  unfold values. rewrite list_elem_of_fmap. split.
  - intros ([v y] & -> & Hin). exists v. by apply elem_of_map_to_list.
  - intros [v Hv]. exists (v, x). split; [done|]. by apply elem_of_map_to_list.
Qed.

Lemma values_empty : values ∅ = [].
Proof. unfold values. by rewrite map_to_list_empty. Qed.

Lemma foldl_max_spec x l :
  foldl Nat.max x l ∈ x :: l ∧ ∀ y, y ∈ x :: l → y ≤ foldl Nat.max x l.
Proof.
  revert x. induction l as [|z l IH]; intros x; simpl.
  - split; [left|]. by intros y ->%list_elem_of_singleton.
  - destruct (IH (x `max` z)) as [Hin Hle]. split.
    + apply elem_of_cons in Hin as [Hin|Hin]; [|by do 2 right].
      rewrite Hin. destruct (Nat.max_spec x z) as [[_ ->]|[_ ->]];
        [right; left | left].
    + intros y Hy. assert (y ≤ x `max` z ∨ y ∈ l) as [?|?].
      { apply elem_of_cons in Hy as [->|Hy]; [left; lia|].
        apply elem_of_cons in Hy as [->|Hy]; [left; lia|by right]. }
      * etrans; [done|]. apply Hle. left.
      * apply Hle. by right.
Qed.

(** When the colours in use are those below [k] and there is one,
    [max(coloring.values()) + 1] is [k]. *)
Lemma num_of_colors_below k (c : Coloring) :
  colors_below k c → c ≠ ∅ → num_of_colors c = Ok k.
Proof.
  intros Hk Hne. unfold num_of_colors.
  destruct (values c) as [|x l] eqn:Hvals.
  - destruct Hne. apply map_to_list_empty_iff.
    unfold values in Hvals. by apply fmap_nil_inv in Hvals.
  - simpl. destruct (foldl_max_spec x l) as [Hin Hle].
    rewrite <- Hvals in Hin, Hle. set (m := foldl Nat.max x l) in *.
    apply elem_of_values, Hk in Hin.
    assert (k - 1 ≤ m).
    { apply Hle, elem_of_values, Hk. lia. }
    f_equal. lia.
Qed.

Lemma num_of_colors_empty : num_of_colors ∅ = Raise ValueError.
Proof. unfold num_of_colors. by rewrite values_empty. Qed.

Lemma size_img_below k (c : Coloring) :
  colors_below k c → size (map_img c : gset nat) = k.
Proof.
  intros Hk. assert (map_img c = (set_seq 0 k : gset nat)) as ->.
  { apply set_eq. intros x. rewrite elem_of_map_img, elem_of_set_seq.
    rewrite (Hk x). lia. }
  apply size_set_seq.
Qed.

(** On a graph with a vertex every strategy returns a colouring whose
    colours can be counted. *)
Lemma greedy_color_counted G strategy rng :
  NoDup (Graph.nodes G) → Graph.nodes G ≠ [] →
  ∃ k, num_of_colors (Greedy.greedy_color G strategy rng).1 = Ok k
       ∧ colors_below k (Greedy.greedy_color G strategy rng).1.
Proof.
  intros Hnd Hne.
  destruct (GreedyFacts.greedy_color_below G strategy rng Hnd) as [k Hk].
  exists k. split; [|done]. apply num_of_colors_below; [done|].
  intros Hempty.
  assert (∃ u, u ∈ Graph.nodes G) as [u Hu].
  { destruct (Graph.nodes G) as [|u us]; [done|]. exists u. left. }
  apply (GreedyFacts.greedy_color_covers G strategy rng Hnd u) in Hu.
  rewrite Hempty, lookup_empty in Hu. by destruct Hu.
Qed.

(** ** [find_best_strategy] *)

Lemma trials_cons G strategy rest rng :
  trials G (strategy :: rest) rng
  = (strategy, (Greedy.greedy_color G strategy rng).1)
    :: trials G rest (Greedy.greedy_color G strategy rng).2.
Proof. simpl. by destruct (Greedy.greedy_color G strategy rng). Qed.

Lemma search_cons G i strategy rest locals rng :
  search G i (strategy :: rest) locals rng
  = (n ← num_of_colors (Greedy.greedy_color G strategy rng).1;
     improves ←
       (if decide (i = 0) then Ok true
        else match locals with
             | Some b => Ok (bool_decide (n < min_num_of_colors b))
             | None => Raise UnboundLocalError
             end);
     search G (S i) rest
            (if improves : bool then Some (Best strategy n) else locals)
            (Greedy.greedy_color G strategy rng).2).
Proof. simpl. by destruct (Greedy.greedy_color G strategy rng). Qed.

Lemma trials_strategies G strategies rng :
  (trials G strategies rng).*1 = strategies.
Proof.
  revert rng. induction strategies as [|s rest IH]; intros rng; [done|].
  rewrite trials_cons, fmap_cons. simpl. by rewrite IH.
Qed.

(** The loop after its first round: the locals change only for a strictly
    smaller count, so they end at the first colouring with the least
    count, or stay when no colouring has a smaller count. *)
Lemma search_later G strategies i b rng :
  NoDup (Graph.nodes G) → Graph.nodes G ≠ [] → i ≠ 0 →
  ∃ b' rng',
    search G i strategies (Some b) rng = Ok (Some b', rng')
    ∧ ((b' = b ∧ beats (trials G strategies rng) (min_num_of_colors b) 0)
       ∨ (∃ j c, trials G strategies rng !! j = Some (best_strategy b', c)
                 ∧ num_of_colors c = Ok (min_num_of_colors b')
                 ∧ min_num_of_colors b' < min_num_of_colors b
                 ∧ beats (trials G strategies rng) (min_num_of_colors b') j)).
Proof.
  intros Hnd Hne. revert i b rng.
  induction strategies as [|s rest IH]; intros i b rng Hi.
  - exists b, rng. split; [done|]. left. split; [done|]. intros j ?? [=].
  - rewrite search_cons, trials_cons.
    destruct (greedy_color_counted G s rng Hnd Hne) as (n & Hn & _).
    rewrite Hn. simpl. rewrite decide_False by done. simpl.
    set (c := (Greedy.greedy_color G s rng).1) in *.
    set (rng1 := (Greedy.greedy_color G s rng).2).
    case_bool_decide as Hlt.
    + destruct (IH (S i) (Best s n) rng1) as (b' & rng' & -> & Hb'); [done|].
      exists b', rng'. split; [done|]. right.
      destruct Hb' as [[-> Hall]|(j & c' & Hj & Hc' & Hlt' & Hall)]; simpl in *.
      * exists 0, c. split_and!; [done..|].
        intros [|j] s' c0 Hj; simpl in Hj.
        -- simplify_eq. exists n. split_and!; [done|lia|lia].
        -- destruct (Hall j s' c0 Hj) as (n' & ? & ? & _).
           exists n'. split_and!; [done|done|lia].
      * exists (S j), c'. split_and!; [done|done|lia|].
        intros [|j'] s' c0 Hj'; simpl in Hj'.
        -- simplify_eq. exists n. split_and!; [done|lia|lia].
        -- destruct (Hall j' s' c0 Hj') as (n' & ? & ? & ?).
           exists n'. split_and!; [done|done|lia].
    + destruct (IH (S i) b rng1) as (b' & rng' & -> & Hb'); [done|].
      exists b', rng'. split; [done|].
      destruct Hb' as [[-> Hall]|(j & c' & Hj & Hc' & Hlt' & Hall)].
      * left. split; [done|].
        intros [|j] s' c0 Hj; simpl in Hj.
        -- simplify_eq. exists n. split_and!; [done|lia|lia].
        -- destruct (Hall j s' c0 Hj) as (n' & ? & ? & _).
           exists n'. split_and!; [done|done|lia].
      * right. exists (S j), c'. split_and!; [done..|].
        intros [|j'] s' c0 Hj'; simpl in Hj'.
        -- simplify_eq. exists n. split_and!; [done|lia|lia].
        -- destruct (Hall j' s' c0 Hj') as (n' & ? & ? & ?).
           exists n'. split_and!; [done|done|lia].
Qed.

(** The whole loop, for any list of strategies that has a first one. *)
Lemma search_first G s0 rest rng :
  NoDup (Graph.nodes G) → Graph.nodes G ≠ [] →
  ∃ i b c rng',
    search G 0 (s0 :: rest) None rng = Ok (Some b, rng')
    ∧ trials G (s0 :: rest) rng !! i = Some (best_strategy b, c)
    ∧ num_of_colors c = Ok (min_num_of_colors b)
    ∧ beats (trials G (s0 :: rest) rng) (min_num_of_colors b) i.
Proof.
  intros Hnd Hne. rewrite search_cons, trials_cons.
  destruct (greedy_color_counted G s0 rng Hnd Hne) as (n & Hn & _).
  rewrite Hn. simpl.
  set (c := (Greedy.greedy_color G s0 rng).1) in *.
  set (rng1 := (Greedy.greedy_color G s0 rng).2).
  destruct (search_later G rest 1 (Best s0 n) rng1)
    as (b' & rng' & -> & Hb'); [done..|].
  destruct Hb' as [[-> Hall]|(j & c' & Hj & Hc' & Hlt' & Hall)]; simpl in *.
  - exists 0, (Best s0 n), c, rng'. simpl. split_and!; [done..|].
    intros [|j] s' c0 Hj; simpl in Hj.
    + simplify_eq. exists n. split_and!; [done|lia|lia].
    + destruct (Hall j s' c0 Hj) as (n' & ? & ? & _).
      exists n'. split_and!; [done|done|lia].
  - exists (S j), b', c', rng'. split_and!; [done..|].
    intros [|j'] s' c0 Hj'; simpl in Hj'.
    + simplify_eq. exists n. split_and!; [done|lia|lia].
    + destruct (Hall j' s' c0 Hj') as (n' & ? & ? & ?).
      exists n'. split_and!; [done|done|lia].
Qed.

(** [find_best_strategy] returns the strategy of the first colouring with
    the least count. *)
Lemma find_best_strategy_spec G rng :
  NoDup (Graph.nodes G) → Graph.nodes G ≠ [] →
  ∃ i s c n rng',
    find_best_strategy G rng = Ok (s, rng')
    ∧ trials G possible_strategies rng !! i = Some (s, c)
    ∧ num_of_colors c = Ok n
    ∧ beats (trials G possible_strategies rng) n i.
Proof.
  intros Hnd Hne. unfold find_best_strategy, possible_strategies.
  destruct (search_first G largest_first
              [ random_sequential; smallest_last; independent_set;
                connected_sequential_bfs; connected_sequential_dfs;
                saturation_largest_first ] rng Hnd Hne)
    as (i & b & c & rng' & -> & ? & ? & ?).
  exists i, (best_strategy b), c, (min_num_of_colors b), rng'. done.
Qed.

(** ** The example graphs *)

Lemma read_triangle : read_graph_from_csv int_decimal triangle_file = Ok triangle.
Proof. reflexivity. Qed.

Lemma read_hexagon : read_graph_from_csv int_decimal hexagon_file = Ok hexagon.
Proof. reflexivity. Qed.

Lemma read_loop : read_graph_from_csv int_decimal loop_file = Ok loop.
Proof. reflexivity. Qed.

Lemma wf_triangle : Graph.wf triangle.
Proof. exact (wf_read_graph_from_csv _ _ _ read_triangle). Qed.

Lemma wf_hexagon : Graph.wf hexagon.
Proof. exact (wf_read_graph_from_csv _ _ _ read_hexagon). Qed.

Lemma wf_loop : Graph.wf loop.
Proof. exact (wf_read_graph_from_csv _ _ _ read_loop). Qed.

(** A graph none of whose adjacency lists holds its own vertex has no
    self-loop. *)
Lemma loop_free_Forall G : Forall (λ p, p.1 ∉ p.2) G → Graph.loop_free G.
Proof.
  induction 1 as [|[w ns] G Hw HG IH]; intros u; simpl.
  - apply not_elem_of_nil.
  - case_decide; [by subst|apply IH].
Qed.

Lemma loop_free_triangle : Graph.loop_free triangle.
Proof. apply loop_free_Forall. by apply (bool_decide_unpack _). Qed.

Lemma loop_free_hexagon : Graph.loop_free hexagon.
Proof. apply loop_free_Forall. by apply (bool_decide_unpack _). Qed.

(** ** The claims on the engine *)

(** C4 (amended): on a graph without self-loops, every strategy colours
    exactly the vertices of the graph, each with a natural number, and the
    two ends of every edge get different colours. *)
Theorem greedy_color_valid G strategy rng :
  Graph.wf G → Graph.loop_free G →
  covers G (Greedy.greedy_color G strategy rng).1
  ∧ ∀ u v, Graph.edge G u v →
      ∃ cu cv, (Greedy.greedy_color G strategy rng).1 !! u = Some cu
               ∧ (Greedy.greedy_color G strategy rng).1 !! v = Some cv
               ∧ cu ≠ cv.
Proof.
  intros HG Hloop.
  pose proof (GreedyFacts.greedy_color_covers G strategy rng (proj1 HG)) as Hcov.
  pose proof (GreedyFacts.greedy_color_proper G strategy rng HG Hloop) as Hp.
  split; [done|]. intros u v Huv.
  assert (is_Some ((Greedy.greedy_color G strategy rng).1 !! u)) as [cu Hu].
  { apply Hcov. eapply GraphFacts.neighbors_node, Huv. }
  assert (is_Some ((Greedy.greedy_color G strategy rng).1 !! v)) as [cv Hv].
  { apply Hcov. eapply GraphFacts.neighbors_node, (proj2 HG), Huv. }
  exists cu, cv. split_and!; [done..|]. by eapply Hp.
Qed.

Lemma greedy_color_valid_witness :
  Graph.wf triangle ∧ Graph.loop_free triangle
  ∧ covers triangle (Greedy.greedy_color triangle saturation_largest_first []).1
  ∧ ∀ u v, Graph.edge triangle u v →
      ∃ cu cv,
        (Greedy.greedy_color triangle saturation_largest_first []).1 !! u = Some cu
        ∧ (Greedy.greedy_color triangle saturation_largest_first []).1 !! v = Some cv
        ∧ cu ≠ cv.
Proof.
  split; [apply wf_triangle|]. split; [apply loop_free_triangle|].
  apply (greedy_color_valid triangle saturation_largest_first []);
    [apply wf_triangle | apply loop_free_triangle].
Defined.

(** C4, as stated, fails on a graph the loader builds: the file with the
    one line [1 1] gives a vertex joined to itself, and no strategy can
    give the two ends of that edge different colours. *)
Lemma greedy_color_self_loop :
  read_graph_from_csv int_decimal loop_file = Ok loop
  ∧ Graph.edge loop 1 1
  ∧ ∀ strategy rng, ¬ proper loop (Greedy.greedy_color loop strategy rng).1.
Proof.
  split; [reflexivity|]. split; [left|].
  intros strategy rng Hp.
  assert ((Greedy.greedy_color loop strategy rng).1 !! 1%Z = Some 0) as H1.
  { destruct strategy; reflexivity. }
  apply (Hp 1%Z 1%Z 0 0); [left|done..].
Qed.

(** C5: on a graph with a vertex and without self-loops, the colours a
    strategy uses are exactly those below [max(coloring.values()) + 1],
    which is therefore the number of distinct colours. *)
Theorem greedy_color_contiguous G strategy rng :
  Graph.wf G → Graph.loop_free G → Graph.nodes G ≠ [] →
  ∃ k, num_of_colors (Greedy.greedy_color G strategy rng).1 = Ok k
       ∧ (∀ x, x ∈ values (Greedy.greedy_color G strategy rng).1 ↔ x < k)
       ∧ size (map_img (Greedy.greedy_color G strategy rng).1 : gset nat) = k.
Proof.
  intros [Hnd _] _ Hne.
  destruct (greedy_color_counted G strategy rng Hnd Hne) as (k & Hk & Hbelow).
  exists k. split_and!; [done| |by apply size_img_below].
  intros x. rewrite elem_of_values. apply Hbelow.
Qed.

Lemma greedy_color_contiguous_witness :
  Graph.wf hexagon ∧ Graph.loop_free hexagon ∧ Graph.nodes hexagon ≠ []
  ∧ ∃ k, num_of_colors (Greedy.greedy_color hexagon largest_first []).1 = Ok k
         ∧ (∀ x, x ∈ values (Greedy.greedy_color hexagon largest_first []).1 ↔ x < k)
         ∧ size (map_img (Greedy.greedy_color hexagon largest_first []).1 : gset nat) = k.
Proof.
  split; [apply wf_hexagon|]. split; [apply loop_free_hexagon|].
  split; [done|].
  apply (greedy_color_contiguous hexagon largest_first []);
    [apply wf_hexagon | apply loop_free_hexagon | done].
Defined.

(** The design document's triangle scenario: every strategy needs three
    colours there. *)
Example triangle_three_colors strategy :
  num_of_colors (Greedy.greedy_color triangle strategy []).1 = Ok 3.
Proof. destruct strategy; vm_compute; reflexivity. Qed.

(** A second run of random_sequential reads other draws and can colour the
    same graph differently, with more colours. *)
Example random_sequential_rerun :
  num_of_colors (Greedy.greedy_color hexagon random_sequential [0; 0; 2]).1 = Ok 2
  ∧ num_of_colors
      (Greedy.greedy_color hexagon random_sequential
         (Greedy.greedy_color hexagon random_sequential [0; 0; 2]).2).1 = Ok 3.
Proof. split; vm_compute; reflexivity. Qed.

(** ** The claims on the search *)

(** C1 (amended): there is no special case for the graph without
    vertices.  The first strategy returns the empty colouring,
    [max(coloring.values())] raises [ValueError] and the search ends there,
    without a strategy. *)
Theorem find_best_strategy_no_vertex G rng :
  Graph.nodes G = [] → find_best_strategy G rng = Raise ValueError.
Proof.
  destruct G; [intros _|done].
  unfold find_best_strategy, possible_strategies. rewrite search_cons.
  change (Greedy.greedy_color [] largest_first rng).1 with (∅ : Coloring).
  by rewrite num_of_colors_empty.
Qed.

Lemma find_best_strategy_no_vertex_witness :
  Graph.nodes Graph.empty = []
  ∧ find_best_strategy Graph.empty [3; 1] = Raise ValueError.
Proof.
  split; [done|]. by apply (find_best_strategy_no_vertex Graph.empty [3; 1]).
Defined.

(** C1, as stated, fails: the file that holds only the header line loads
    as the graph without vertices, and on it the search raises instead of
    returning. *)
Lemma find_best_strategy_header_only :
  read_graph_from_csv int_decimal ["vertex1 vertex2"]%string = Ok Graph.empty
  ∧ find_best_strategy Graph.empty [] = Raise ValueError
  ∧ main int_decimal ["vertex1 vertex2"]%string [] = Raise ValueError.
Proof. split_and!; vm_compute; reflexivity. Qed.

(** C3: on a graph with a vertex and without self-loops the search colours
    the graph with the seven strategies in their listed order and returns
    the strategy of the first colouring of least count: no colouring has a
    smaller count, and every earlier one has a larger count. *)
Theorem find_best_strategy_first_least G rng :
  Graph.wf G → Graph.loop_free G → Graph.nodes G ≠ [] →
  (trials G possible_strategies rng).*1
  = [ largest_first; random_sequential; smallest_last; independent_set;
      connected_sequential_bfs; connected_sequential_dfs;
      saturation_largest_first ]
  ∧ ∃ i s c n rng',
      find_best_strategy G rng = Ok (s, rng')
      ∧ trials G possible_strategies rng !! i = Some (s, c)
      ∧ num_of_colors c = Ok n
      ∧ ∀ j s' c', trials G possible_strategies rng !! j = Some (s', c') →
          ∃ n', num_of_colors c' = Ok n' ∧ n ≤ n' ∧ (j < i → n < n').
Proof.
  intros [Hnd _] _ Hne. split; [apply trials_strategies|].
  apply find_best_strategy_spec; done.
Qed.

Lemma find_best_strategy_first_least_witness :
  Graph.wf hexagon ∧ Graph.loop_free hexagon ∧ Graph.nodes hexagon ≠ []
  ∧ ∃ i s c n rng',
      find_best_strategy hexagon [0; 0; 2] = Ok (s, rng')
      ∧ trials hexagon possible_strategies [0; 0; 2] !! i = Some (s, c)
      ∧ num_of_colors c = Ok n
      ∧ ∀ j s' c',
          trials hexagon possible_strategies [0; 0; 2] !! j = Some (s', c') →
          ∃ n', num_of_colors c' = Ok n' ∧ n ≤ n' ∧ (j < i → n < n').
Proof.
  split; [apply wf_hexagon|]. split; [apply loop_free_hexagon|].
  split; [done|].
  apply (find_best_strategy_first_least hexagon [0; 0; 2]);
    [apply wf_hexagon | apply loop_free_hexagon | done].
Defined.

(** C2 (amended): [find_best_strategy] returns the name of the winning
    strategy only, not its colouring.  For a file of plain lines that loads
    as a graph with a vertex and without self-loops, the count that the
    winner's colouring had in the search is at most the count of every
    colouring of the search, and [main] writes the colouring that one more
    run of [greedy_color] with the winner returns. *)
Theorem find_best_strategy_least_count py_int file G rng :
  Forall plain file →
  read_graph_from_csv py_int file = Ok G →
  Graph.loop_free G → Graph.nodes G ≠ [] →
  ∃ s c n rng1,
    find_best_strategy G rng = Ok (s, rng1)
    ∧ (s, c) ∈ trials G possible_strategies rng
    ∧ num_of_colors c = Ok n
    ∧ (∀ s' c', (s', c') ∈ trials G possible_strategies rng →
         ∃ n', num_of_colors c' = Ok n' ∧ n ≤ n')
    ∧ main py_int file rng
      = Ok (write_coloring_to_csv (Greedy.greedy_color G s rng1).1,
            (Greedy.greedy_color G s rng1).2).
Proof.
  intros _ Hread _ Hne.
  destruct (wf_read_graph_from_csv _ _ _ Hread) as [Hnd _].
  destruct (find_best_strategy_spec G rng Hnd Hne)
    as (i & s & c & n & rng1 & Hfind & Hi & Hn & Hall).
  exists s, c, n, rng1. split_and!; [done| |done| |].
  - by eapply list_elem_of_lookup_2.
  - intros s' c' [j Hj]%list_elem_of_lookup.
    destruct (Hall j s' c' Hj) as (n' & ? & ? & _). eauto.
  - unfold main. rewrite Hread. simpl. rewrite Hfind. simpl.
    by destruct (Greedy.greedy_color G s rng1).
Qed.

Lemma find_best_strategy_least_count_witness :
  ∃ s c n rng1,
    find_best_strategy triangle [] = Ok (s, rng1)
    ∧ (s, c) ∈ trials triangle possible_strategies []
    ∧ num_of_colors c = Ok n
    ∧ (∀ s' c', (s', c') ∈ trials triangle possible_strategies [] →
         ∃ n', num_of_colors c' = Ok n' ∧ n ≤ n')
    ∧ main int_decimal triangle_file []
      = Ok (write_coloring_to_csv (Greedy.greedy_color triangle s rng1).1,
            (Greedy.greedy_color triangle s rng1).2).
Proof.
  apply (find_best_strategy_least_count int_decimal triangle_file triangle []).
  - by apply (bool_decide_unpack _).
  - reflexivity.
  - apply loop_free_triangle.
  - done.
Defined.

(** C2, as stated, fails: on the six-cycle, with draws that let
    random_sequential find two colours in the search, random_sequential
    wins; [main] then colours the graph again with it, other draws give
    three colours, and three colours are written out although
    connected_sequential_bfs needs two. *)
Lemma main_writes_more_colors :
  read_graph_from_csv int_decimal hexagon_file = Ok hexagon
  ∧ find_best_strategy hexagon [0; 0; 2] = Ok (random_sequential, [])
  ∧ num_of_colors (Greedy.greedy_color hexagon random_sequential []).1 = Ok 3
  ∧ num_of_colors (Greedy.greedy_color hexagon connected_sequential_bfs []).1
    = Ok 2
  ∧ main int_decimal hexagon_file [0; 0; 2]
    = Ok (["vertex color"; "1 0"; "2 1"; "3 2"; "4 0"; "5 1"; "6 2"]%string, []).
Proof. split_and!; vm_compute; reflexivity. Qed.

(** ** [write_coloring_to_csv] *)

Lemma StronglySorted_le_lt (l : list Z) :
  StronglySorted Z.le l → NoDup l → StronglySorted Z.lt l.
Proof.
  induction 1 as [|x l Hl IH Hx]; intros Hnd; [constructor|].
  apply NoDup_cons in Hnd as [Hxl Hnd]. constructor; [auto|].
  apply Forall_forall. intros y Hy.
  assert (x ≤ y)%Z by (eapply Forall_forall in Hx; done).
  assert (x ≠ y) by (by intros ->). lia.
Qed.

(** The keys in ascending order: each key once, smaller before larger. *)
Lemma sorted_spec (coloring : Coloring) :
  StronglySorted Z.lt (sorted coloring)
  ∧ ∀ v, v ∈ sorted coloring ↔ is_Some (coloring !! v).
Proof.
  unfold sorted. split.
  - apply StronglySorted_le_lt.
    + apply (StronglySorted_merge_sort _).
    + rewrite merge_sort_Permutation. apply NoDup_fst_map_to_list.
  - intros v. rewrite merge_sort_Permutation, list_elem_of_fmap. split.
    + intros ([v' c] & -> & Hin). apply elem_of_map_to_list in Hin. eauto.
    + intros [c Hc]. exists (v, c). split; [done|].
      by apply elem_of_map_to_list.
Qed.

(** C6: the file written is the header line [vertex color] followed by one
    line for each vertex of the colouring and no other, the vertices in
    strictly ascending order, each line holding the vertex and its colour
    separated by a space. *)
Theorem write_coloring_to_csv_lines (coloring : Coloring) :
  ∃ vs lines,
    write_coloring_to_csv coloring = "vertex color"%string :: lines
    ∧ StronglySorted Z.lt vs
    ∧ (∀ v, v ∈ vs ↔ is_Some (coloring !! v))
    ∧ Forall2 (λ v line, ∃ c, coloring !! v = Some c
                              ∧ line = pretty v +:+ " " +:+ pretty c)
              vs lines.
Proof.
  destruct (sorted_spec coloring) as [Hsorted Hdom].
  exists (sorted coloring). eexists. split_and!; [reflexivity|done..|].
  unfold sorted_coloring. rewrite <- list_fmap_compose.
  apply Forall2_fmap_r, Forall_Forall2_diag, Forall_forall.
  intros v [c Hc]%Hdom. exists c. split; [done|].
  simpl. unfold writerow. simpl. by rewrite (lookup_total_correct _ _ _ Hc).
Qed.

(** The design document's scenario with two disjoint edges, written out. *)
Example write_coloring_to_csv_two_edges :
  write_coloring_to_csv
    (<[4%Z := 0]> (<[1%Z := 1]> (<[3%Z := 1]> {[ 2%Z := 0 ]})))
  = ["vertex color"; "1 1"; "2 0"; "3 1"; "4 0"]%string.
Proof. vm_compute. reflexivity. Qed.

(** ** Instances of the loader's claims *)

Lemma read_graph_from_csv_empty_file_witness :
  read_graph_from_csv int_decimal triangle_file = Ok triangle
  ∧ ∃ hdr lines, triangle_file = hdr :: lines.
Proof.
  split; [reflexivity|].
  apply (read_graph_from_csv_empty_file int_decimal) with (G := triangle).
  reflexivity.
Defined.

(** The design document's duplicate-edge case: a repeated line and a
    reversed line change nothing. *)
Example read_graph_from_csv_repeats :
  drop_duplicates int_decimal [] ["1 2"; "2 3"; "2 1"; "3 1"; "1 2"]%string
  = ["1 2"; "2 3"; "3 1"]%string
  ∧ read_graph_from_csv int_decimal
      ["vertex1 vertex2"; "1 2"; "2 3"; "2 1"; "3 1"; "1 2"]%string
    = Ok triangle.
Proof. split; reflexivity. Qed.

(** * Rows, files and whole runs *)

(** ** Rows: what the reader splits is what the writer joins *)

Lemma split_on_nonempty s : split_on " " s ≠ [].
Proof. destruct s as [|c s]; simpl; [done|]. by repeat case_match. Qed.

Lemma split_on_spaceless s : spaceless s → split_on " " s = [s].
Proof.
  induction s as [|c s IH]; simpl; [done|]. intros [Hc Hs].
  rewrite IH by done. by rewrite (proj2 (Ascii.eqb_neq _ _) Hc).
Qed.

Lemma split_on_app a s :
  spaceless a → split_on " " (a +:+ String " " s) = a :: split_on " " s.
Proof.
  induction a as [|c a IH]; simpl; [done|]. intros [Hc Ha].
  rewrite IH by done. by rewrite (proj2 (Ascii.eqb_neq _ _) Hc).
Qed.

Lemma concat_cons_cons sep (x y : string) l :
  String.concat sep (x :: y :: l) = x +:+ sep +:+ String.concat sep (y :: l).
Proof. reflexivity. Qed.

Lemma split_on_concat fields :
  Forall spaceless fields → fields ≠ [] →
  split_on " " (String.concat " " fields) = fields.
Proof.
  induction 1 as [|f fields Hf Hfields IH]; [done|]. intros _.
  destruct fields as [|g fields].
  - by apply split_on_spaceless.
  - rewrite concat_cons_cons.
    change (" " +:+ ?s) with (String " " s).
    rewrite split_on_app by done. f_equal. by apply IH.
Qed.

(** X4: a row that [writerow] joins is split by the reader into the same
    fields, for plain fields without a space (the writer quotes none of
    them), the row of the single empty field apart. *)
Theorem csv_row_writerow (fields : list string) :
  Forall plain fields → Forall spaceless fields → fields ≠ [EmptyString] →
  csv_row (writerow fields) = fields.
Proof.
  intros _ Hfields Hne. unfold csv_row, writerow.
  destruct fields as [|f [|g fields]].
  - done.
  - simpl. rewrite decide_False by congruence.
    apply split_on_spaceless. by apply Forall_cons in Hfields as [? _].
  - rewrite decide_False.
    + by apply split_on_concat.
    + rewrite concat_cons_cons. by destruct f.
Qed.

Lemma csv_row_writerow_witness :
  csv_row (writerow ["vertex"; "color"]%string) = ["vertex"; "color"]%string.
Proof.
  apply (csv_row_writerow ["vertex"; "color"]%string).
  - by apply (bool_decide_unpack _).
  - repeat constructor; by apply (bool_decide_unpack _).
  - done.
Defined.

Lemma writerow_csv_row_fields line : String.concat " " (csv_row line) = line.
Proof.
  unfold csv_row. case_decide as Hline; [by subst|clear Hline].
  induction line as [|c line IH]; [done|]. simpl.
  pose proof (split_on_nonempty line) as Hne.
  destruct (Ascii.eqb c " ") eqn:Hc.
  - apply Ascii.eqb_eq in Hc as ->.
    destruct (split_on " " line) as [|f fs]; [done|].
    rewrite concat_cons_cons, IH. reflexivity.
  - destruct (split_on " " line) as [|f fs]; [done|].
    destruct fs as [|g fs].
    + simpl in *. by rewrite IH.
    + rewrite concat_cons_cons in *. rewrite <- IH. reflexivity.
Qed.

(** X5: the other way round nothing is lost either: joining the fields the
    reader splits a plain line into gives the line back, spaces at the ends
    and runs of spaces included. *)
Theorem writerow_csv_row (line : string) :
  plain line → writerow (csv_row line) = line.
Proof. intros _. apply writerow_csv_row_fields. Qed.

Lemma writerow_csv_row_witness :
  plain " 1  2 " ∧ writerow (csv_row " 1  2 ") = " 1  2 "%string.
Proof.
  split; [by apply (bool_decide_unpack _)|].
  apply (writerow_csv_row " 1  2 "). by apply (bool_decide_unpack _).
Defined.

Lemma csv_row_pair (a b : string) :
  spaceless a → spaceless b → csv_row (writerow [a; b]) = [a; b].
Proof.
  intros Ha Hb. unfold csv_row, writerow. rewrite decide_False.
  - apply split_on_concat; [by repeat constructor|done].
  - rewrite concat_cons_cons. by destruct a.
Qed.

(** ** Which lines are edge lines *)

Lemma spaceless_split_on s : Forall spaceless (split_on " " s).
Proof.
  induction s as [|c s IH]; simpl; [by repeat constructor|].
  destruct (Ascii.eqb c " ") eqn:Hc.
  - by constructor.
  - apply Ascii.eqb_neq in Hc.
    destruct (split_on " " s) as [|f fs]; [by repeat constructor|].
    apply Forall_cons in IH as [Hf Hfs]. by repeat constructor.
Qed.

Lemma spaceless_csv_row line : Forall spaceless (csv_row line).
Proof.
  unfold csv_row. case_decide; [constructor|apply spaceless_split_on].
Qed.

(** The loader's test of a line says what [edge_line] says. *)
Lemma edge_of_line_edge_line py_int (line : string) (x y : Z) :
  edge_of_line py_int line = Some (x, y) ↔ edge_line py_int line x y.
Proof.
  unfold edge_of_line, edge_line. split.
  - pose proof (writerow_csv_row_fields line) as Hline.
    pose proof (spaceless_csv_row line) as Hfields.
    destruct (csv_row line) as [|a [|b [|c fields]]]; simpl; try done.
    destruct (py_int a) as [x'|] eqn:Ha, (py_int b) as [y'|] eqn:Hb;
      try done.
    intros [= <- <-]. exists a, b.
    apply Forall_cons in Hfields as [? [? _]%Forall_cons].
    split_and!; done.
  - intros (a & b & -> & Ha & Hb & Hx & Hy).
    change (a +:+ " " +:+ b) with (writerow [a; b]).
    rewrite csv_row_pair by done. simpl. by rewrite Hx, Hy.
Qed.

Lemma edge_of_line_None py_int (line : string) :
  edge_of_line py_int line = None ↔ ∀ a b, ¬ edge_line py_int line a b.
Proof.
  split.
  - intros Hnone a b He%edge_of_line_edge_line. congruence.
  - intros Hno. destruct (edge_of_line py_int line) as [[a b]|] eqn:He; [|done].
    by apply edge_of_line_edge_line, Hno in He.
Qed.

Lemma Forall2_edge_line py_int lines es :
  Forall2 (λ x e, edge_line py_int x e.1 e.2) lines es
  ↔ Forall2 (λ x e, edge_of_line py_int x = Some e) lines es.
Proof.
  split; intros H; (eapply Forall2_impl; [exact H|]); intros x [a b];
    apply edge_of_line_edge_line.
Qed.

(** X17: on a plain line, the loader takes the line for an edge exactly
    when the line is two strings without a space, joined by a single space,
    that [int] both accepts; the edge joins the two integers.  A leading or
    trailing space, two spaces in a row or a third field make the line
    fail. *)
Theorem edge_of_line_accepts py_int (line : string) (x y : Z) :
  plain line →
  edge_of_line py_int line = Some (x, y) ↔ edge_line py_int line x y.
Proof. intros _. apply edge_of_line_edge_line. Qed.

Lemma edge_of_line_accepts_witness :
  plain "-3 10" ∧ edge_line int_decimal "-3 10" (-3) 10.
Proof.
  split; [by apply (bool_decide_unpack _)|].
  apply (edge_of_line_accepts int_decimal "-3 10" (-3) 10);
    [by apply (bool_decide_unpack _) | reflexivity].
Defined.

Example edge_of_line_spaces :
  edge_of_line int_decimal "1 2" = Some (1, 2)%Z
  ∧ edge_of_line int_decimal "1 2 " = None
  ∧ edge_of_line int_decimal " 1 2" = None
  ∧ edge_of_line int_decimal "1  2" = None
  ∧ edge_of_line int_decimal "1 2 3" = None
  ∧ edge_of_line int_decimal "1 " = None
  ∧ edge_of_line int_decimal " 2" = None
  ∧ edge_of_line int_decimal "12" = None
  ∧ edge_of_line int_decimal "1 x" = None
  ∧ edge_of_line int_decimal "+1 -2" = Some (1, -2)%Z.
Proof. repeat split. Qed.

(** ** The claims on the loader *)

(** C7: on a file of plain lines the first line is skipped whatever it
    holds; when every later line is two integers the graph returned has
    exactly the edges of the lines, each in both directions; and one later
    line that is not two integers makes the whole call raise [ValueError],
    with no graph returned. *)
Theorem read_graph_from_csv_lines py_int (hdr : string) (lines : list string) :
  Forall plain (hdr :: lines) →
  (∀ es, Forall2 (λ x e, edge_line py_int x e.1 e.2) lines es →
     read_graph_from_csv py_int (hdr :: lines) = Ok (add_edges es Graph.empty)
     ∧ ∀ u v, Graph.edge (add_edges es Graph.empty) u v
              ↔ (u, v) ∈ es ∨ (v, u) ∈ es)
  ∧ (∀ x, x ∈ lines → (∀ a b, ¬ edge_line py_int x a b) →
       read_graph_from_csv py_int (hdr :: lines) = Raise ValueError).
Proof.
  intros _. rewrite read_graph_from_csv_cons, read_rows_mapM. split.
  - intros es Hes%Forall2_edge_line. apply mapM_Some in Hes. rewrite Hes.
    split; [done|].
    intros u v. unfold Graph.edge. rewrite elem_of_neighbors_add_edges.
    simpl. rewrite elem_of_nil. tauto.
  - intros x Hx Hnone%edge_of_line_None.
    destruct (mapM _ lines) as [es|] eqn:Hes; [|done].
    apply mapM_Some in Hes.
    apply list_elem_of_lookup in Hx as [i Hi].
    destruct (Forall2_lookup_l _ _ _ _ _ Hes Hi) as (e & _ & He).
    congruence.
Qed.

Lemma read_graph_from_csv_lines_witness :
  read_graph_from_csv int_decimal ["a b"; "1 2"; "2 3"]%string
  = Ok (add_edges [(1, 2); (2, 3)]%Z Graph.empty)
  ∧ read_graph_from_csv int_decimal ["a b"; "1 2"; "2 x"; "3 4"]%string
    = Raise ValueError.
Proof.
  split.
  - apply (read_graph_from_csv_lines int_decimal "a b" ["1 2"; "2 3"]%string).
    + by apply (bool_decide_unpack _).
    + repeat constructor; apply edge_of_line_edge_line; reflexivity.
  - apply (read_graph_from_csv_lines int_decimal "a b"
             ["1 2"; "2 x"; "3 4"]%string) with (x := "2 x"%string).
    + by apply (bool_decide_unpack _).
    + right. left.
    + by apply edge_of_line_None.
Defined.

(** C8: on a file of plain lines, loading the file gives the same result,
    graph for graph, as loading it with every repeated edge line (the same
    pair of integers, in either order) removed. *)
Theorem read_graph_from_csv_duplicates py_int (hdr : string)
    (lines : list string) :
  Forall plain (hdr :: lines) →
  read_graph_from_csv py_int (hdr :: lines)
  = read_graph_from_csv py_int (hdr :: drop_duplicates py_int [] lines).
Proof.
  intros _. rewrite !read_graph_from_csv_cons.
  symmetry. apply read_rows_drop_duplicates.
  intros a b Hin. by apply elem_of_nil in Hin.
Qed.

Lemma read_graph_from_csv_duplicates_witness :
  read_graph_from_csv int_decimal
    ["vertex1 vertex2"; "1 2"; "2 3"; "2 1"; "3 1"; "1 2"]%string
  = read_graph_from_csv int_decimal ["vertex1 vertex2"; "1 2"; "2 3"; "3 1"]%string.
Proof.
  apply (read_graph_from_csv_duplicates int_decimal "vertex1 vertex2"
           ["1 2"; "2 3"; "2 1"; "3 1"; "1 2"]%string).
  by apply (bool_decide_unpack _).
Defined.

(** ** What the loader builds *)

Lemma NoDup_neighbors_link u v G x :
  NoDup (Graph.neighbors G x) → NoDup (Graph.neighbors (Graph.link u v G) x).
Proof.
  induction G as [|[w ns] G IH]; simpl; [done|].
  destruct (decide (w = u)) as [->|Hwu]; simpl.
  - destruct (decide (u = x)) as [->|Hux]; [|done].
    intros Hns. case_decide as Hv; [done|].
    apply NoDup_app. split_and!; [done| |apply NoDup_singleton].
    intros y Hy ->%list_elem_of_singleton. done.
  - destruct (decide (w = x)); [done|apply IH].
Qed.

Lemma simple_add_edge u v G : simple G → simple (Graph.add_edge u v G).
Proof.
  intros HG x. unfold Graph.add_edge.
  do 2 apply NoDup_neighbors_link. rewrite !GraphFacts.neighbors_add_node.
  apply HG.
Qed.

Lemma simple_add_edges es G : simple G → simple (add_edges es G).
Proof.
  revert G. induction es as [|[a b] es IH]; intros G HG; [done|].
  apply IH. by apply simple_add_edge.
Qed.

Lemma elem_of_nodes_add_edges es G u :
  u ∈ Graph.nodes (add_edges es G)
  ↔ u ∈ Graph.nodes G ∨ ∃ a b, (a, b) ∈ es ∧ (u = a ∨ u = b).
Proof.
  revert G. induction es as [|[a b] es IH]; intros G.
  - split; [auto|]. intros [?|(a & b & Hin & _)]; [done|].
    by apply elem_of_nil in Hin.
  - unfold add_edges in *. cbn [foldl fst snd].
    rewrite IH, GraphFacts.nodes_add_edge. split.
    + intros [[?|Hu]|(a' & b' & Hin & Hu)]; [auto| |].
      * right. exists a, b. split; [left|]. destruct Hu; auto.
      * right. exists a', b'. split; [by right|done].
    + intros [?|(a' & b' & Hin & Hu)]; [auto|].
      apply elem_of_cons in Hin as [[= -> ->]|Hin].
      * left. right. destruct Hu; auto.
      * right. eauto.
Qed.

(** A graph that loads is the graph of the edges of its lines. *)
Lemma read_graph_from_csv_Ok py_int file G :
  read_graph_from_csv py_int file = Ok G →
  ∃ hdr lines es,
    file = hdr :: lines
    ∧ Forall2 (λ x e, edge_of_line py_int x = Some e) lines es
    ∧ G = add_edges es Graph.empty.
Proof.
  destruct file as [|hdr lines]; [done|].
  rewrite read_graph_from_csv_cons, read_rows_mapM.
  destruct (mapM _ lines) as [es|] eqn:Hes; [|done].
  intros [= <-]. apply mapM_Some in Hes. eauto 6.
Qed.

(** X1: a graph that loads keeps the invariants of an undirected simple
    adjacency structure: no vertex is listed twice, [v] is a neighbour of
    [u] exactly when [u] is one of [v], and no adjacency list holds a
    vertex twice, however often the file repeats an edge. *)
Theorem read_graph_from_csv_invariant py_int file G :
  read_graph_from_csv py_int file = Ok G →
  NoDup (Graph.nodes G)
  ∧ (∀ u v, Graph.edge G u v ↔ Graph.edge G v u)
  ∧ ∀ u, NoDup (Graph.neighbors G u).
Proof.
  intros Hread.
  destruct (wf_read_graph_from_csv _ _ _ Hread) as [Hnd Hsym].
  split_and!; [done|split; apply Hsym|].
  apply read_graph_from_csv_Ok in Hread as (hdr & lines & es & _ & _ & ->).
  apply simple_add_edges. intros u. apply NoDup_nil_2.
Qed.

Lemma read_graph_from_csv_invariant_witness :
  NoDup (Graph.nodes triangle)
  ∧ (∀ u v, Graph.edge triangle u v ↔ Graph.edge triangle v u)
  ∧ ∀ u, NoDup (Graph.neighbors triangle u).
Proof.
  apply (read_graph_from_csv_invariant int_decimal
           ["vertex1 vertex2"; "1 2"; "2 3"; "2 1"; "3 1"; "1 2"]%string).
  reflexivity.
Defined.

(** X2: the loader only records edges, so the graph loaded from a file of
    plain lines has no isolated vertex: its vertices are exactly the ends
    of its edges, which are exactly the integers on the edge lines. *)
Theorem read_graph_from_csv_no_isolated py_int hdr lines G :
  Forall plain (hdr :: lines) →
  read_graph_from_csv py_int (hdr :: lines) = Ok G →
  ∀ u, (u ∈ Graph.nodes G ↔ ∃ v, Graph.edge G u v)
       ∧ (u ∈ Graph.nodes G
          ↔ ∃ x a b, x ∈ lines ∧ edge_line py_int x a b ∧ (u = a ∨ u = b)).
Proof.
  intros _ Hread u.
  apply read_graph_from_csv_Ok in Hread
    as (hdr' & lines' & es & [= <- <-] & Hes & ->).
  rewrite elem_of_nodes_add_edges. unfold Graph.edge.
  setoid_rewrite elem_of_neighbors_add_edges. simpl.
  setoid_rewrite elem_of_nil. split.
  - split.
    + intros [[]|(a & b & Hin & [->| ->])]; eauto.
    + intros [v [[]|[Hin|Hin]]]; right; eauto.
  - split.
    + intros [[]|(a & b & Hin & Hu)].
      apply list_elem_of_lookup in Hin as [i Hi].
      destruct (Forall2_lookup_r _ _ _ _ _ Hes Hi) as (x & Hx & He).
      exists x, a, b. split_and!; [|by apply edge_of_line_edge_line|done].
      by eapply list_elem_of_lookup_2.
    + intros (x & a & b & Hin & He%edge_of_line_edge_line & Hu). right.
      apply list_elem_of_lookup in Hin as [i Hi].
      destruct (Forall2_lookup_l _ _ _ _ _ Hes Hi) as (e & Hei & He').
      exists a, b. split; [|done]. apply list_elem_of_lookup. exists i.
      congruence.
Qed.

Lemma read_graph_from_csv_no_isolated_witness :
  (3%Z ∈ Graph.nodes hexagon ↔ ∃ v, Graph.edge hexagon 3 v)
  ∧ (3%Z ∈ Graph.nodes hexagon
     ↔ ∃ x a b, x ∈ tail hexagon_file
                ∧ edge_line int_decimal x a b
                ∧ (3%Z = a ∨ 3%Z = b)).
Proof.
  apply (read_graph_from_csv_no_isolated int_decimal "vertex1 vertex2"
           (tail hexagon_file) hexagon).
  - by apply (bool_decide_unpack _).
  - reflexivity.
Defined.

Lemma mapM_Permutation {A B} (f : A → option B) (l l' : list A) :
  l ≡ₚ l' →
  ∀ es, mapM f l = Some es → ∃ es', mapM f l' = Some es' ∧ es ≡ₚ es'.
Proof.
  induction 1 as [|x l l' Hperm IH|x y l|l l' l'' _ IH1 _ IH2]; intros es.
  - intros [= <-]. by exists [].
  - cbn [mapM]. destruct (f x) as [e|]; [|done]. simpl.
    destruct (mapM f l) as [k|]; [|done]. intros [= <-].
    destruct (IH k eq_refl) as (k' & -> & ?). exists (e :: k'). simpl.
    split; [done|]. by f_equiv.
  - cbn [mapM]. destruct (f x) as [e|], (f y) as [e'|]; try done; simpl.
    destruct (mapM f l) as [k|]; [|done]. intros [= <-].
    exists (e :: e' :: k). split; [done|]. apply Permutation_swap.
  - intros Hes. destruct (IH1 es Hes) as (es1 & Hes1 & ?).
    destruct (IH2 es1 Hes1) as (es2 & ? & ?). exists es2. split; [done|].
    by etrans.
Qed.

(** X3: for files of plain lines, the order of the edge lines, and the
    header, do not matter for what graph is loaded, only for the order in
    which its vertices are kept: with the lines rearranged the file still
    loads, and the graph has the same vertices and the same edges. *)
Theorem read_graph_from_csv_line_order py_int hdr hdr' lines lines' G :
  Forall plain (hdr :: lines) → plain hdr' →
  lines ≡ₚ lines' →
  read_graph_from_csv py_int (hdr :: lines) = Ok G →
  ∃ G', read_graph_from_csv py_int (hdr' :: lines') = Ok G'
        ∧ Graph.nodes G' ≡ₚ Graph.nodes G
        ∧ ∀ u v, Graph.edge G' u v ↔ Graph.edge G u v.
Proof.
  intros _ _ Hperm. rewrite !read_graph_from_csv_cons, !read_rows_mapM.
  destruct (mapM _ lines) as [es|] eqn:Hes; [|done]. intros [= <-].
  destruct (mapM_Permutation _ _ _ Hperm es Hes) as (es' & -> & Hes').
  eexists. split; [done|]. split.
  - apply NoDup_Permutation.
    + apply wf_add_edges, GraphFacts.wf_empty.
    + apply wf_add_edges, GraphFacts.wf_empty.
    + intros u. rewrite !elem_of_nodes_add_edges.
      by setoid_rewrite Hes'.
  - intros u v. unfold Graph.edge. rewrite !elem_of_neighbors_add_edges.
    by rewrite Hes'.
Qed.

Lemma read_graph_from_csv_line_order_witness :
  ∃ G', read_graph_from_csv int_decimal
          ["v w"; "1 2"; "2 3"; "3 4"; "4 5"; "5 6"; "6 1"]%string = Ok G'
        ∧ Graph.nodes G' ≡ₚ Graph.nodes hexagon
        ∧ ∀ u v, Graph.edge G' u v ↔ Graph.edge hexagon u v.
Proof.
  apply (read_graph_from_csv_line_order int_decimal "vertex1 vertex2" "v w"
           (tail hexagon_file)).
  - by apply (bool_decide_unpack _).
  - by apply (bool_decide_unpack _).
  - simpl. do 1 constructor. etrans; [apply Permutation_swap|].
    constructor. etrans; [apply Permutation_swap|]. done.
  - reflexivity.
Defined.

(** The order of the lines does matter for the colouring: the two orders of
    the six-cycle above give largest_first three colours and two. *)
Example line_order_changes_coloring :
  num_of_colors (Greedy.greedy_color hexagon largest_first []).1 = Ok 3
  ∧ (G ← read_graph_from_csv int_decimal
           ["v w"; "1 2"; "2 3"; "3 4"; "4 5"; "5 6"; "6 1"]%string;
     num_of_colors (Greedy.greedy_color G largest_first []).1) = Ok 2.
Proof. split; vm_compute; reflexivity. Qed.

(** ** What the writer writes *)

Lemma spaceless_pretty_N_go x s : spaceless s → spaceless (pretty_N_go x s).
Proof.
  revert s. induction (N.lt_wf_0 x) as [x _ IH]; intros s Hs.
  assert (x = 0 ∨ 0 < x)%N as [->|?] by lia.
  - by rewrite pretty_N_go_0.
  - rewrite pretty_N_go_step by done. apply IH.
    { by apply N.div_lt. }
    split; [|done]. unfold pretty_N_char. by repeat case_match.
Qed.

Lemma spaceless_pretty_N (x : N) : spaceless (pretty x).
Proof.
  unfold pretty, pretty_N. case_decide; [by split|].
  by apply spaceless_pretty_N_go.
Qed.

Lemma spaceless_pretty_nat (x : nat) : spaceless (pretty x).
Proof. apply spaceless_pretty_N. Qed.

Lemma spaceless_pretty_Z (x : Z) : spaceless (pretty x).
Proof.
  destruct x as [|p|p]; unfold pretty, pretty_Z.
  - by split.
  - apply spaceless_pretty_N.
  - split; [done|]. apply spaceless_pretty_N.
Qed.

Lemma sorted_NoDup (coloring : Coloring) : NoDup (sorted coloring).
Proof.
  unfold sorted. rewrite merge_sort_Permutation. apply NoDup_fst_map_to_list.
Qed.

Lemma sorted_Permutation (coloring : Coloring) :
  sorted coloring ≡ₚ (map_to_list coloring).*1.
Proof. apply merge_sort_Permutation. Qed.

Lemma elem_of_sorted_coloring (coloring : Coloring) v c :
  (v, c) ∈ sorted_coloring coloring ↔ coloring !! v = Some c.
Proof.
  unfold sorted_coloring. rewrite list_elem_of_fmap. split.
  - intros (v' & [= -> ->] & [c' Hc]%sorted_spec).
    by rewrite (lookup_total_correct _ _ _ Hc).
  - intros Hv. exists v. split.
    + by rewrite (lookup_total_correct _ _ _ Hv).
    + apply sorted_spec. eauto.
Qed.

Lemma sorted_coloring_keys (coloring : Coloring) :
  (sorted_coloring coloring).*1 = sorted coloring.
Proof.
  unfold sorted_coloring. rewrite <- list_fmap_compose. apply list_fmap_id.
Qed.

(** X6: sorting the dictionary by its keys keeps the mapping: the items of
    [sorted_coloring] have distinct keys, and the dictionary built from
    them maps every vertex to the colour it had. *)
Theorem sorted_coloring_same_mapping (coloring : Coloring) :
  NoDup (sorted_coloring coloring).*1
  ∧ list_to_map (sorted_coloring coloring) = coloring.
Proof.
  assert (NoDup (sorted_coloring coloring).*1) as Hnd.
  { rewrite sorted_coloring_keys. apply sorted_NoDup. }
  split; [done|].
  apply map_eq. intros v. destruct (coloring !! v) as [c|] eqn:Hv.
  - apply elem_of_list_to_map; [done|]. by apply elem_of_sorted_coloring.
  - apply not_elem_of_list_to_map. rewrite sorted_coloring_keys.
    intros Hin%sorted_spec. rewrite Hv in Hin. by destruct Hin.
Qed.

(** X7: the file written has one line more than the colouring has
    vertices; the colouring without vertices is written as the header
    alone. *)
Theorem write_coloring_to_csv_length (coloring : Coloring) :
  length (write_coloring_to_csv coloring) = S (size coloring).
Proof.
  unfold write_coloring_to_csv, sorted_coloring. cbn [length].
  rewrite !length_fmap, sorted_Permutation, length_fmap.
  by rewrite length_map_to_list.
Qed.

(** X8: every line written reads back: the reader splits the header into
    [vertex] and [color], and the line of a vertex into two fields, the
    decimal of the vertex and the decimal of its colour. *)
Theorem write_coloring_to_csv_rows (coloring : Coloring) :
  csv_reader (write_coloring_to_csv coloring)
  = ["vertex"; "color"]%string
    :: ((λ '(vertex, color), [pretty vertex; pretty color])
          <$> sorted_coloring coloring).
Proof.
  unfold write_coloring_to_csv, csv_reader. rewrite fmap_cons. f_equal.
  rewrite <- list_fmap_compose. apply list_fmap_ext.
  intros i [v c] _. simpl.
  apply csv_row_pair; [apply spaceless_pretty_Z | apply spaceless_pretty_nat].
Qed.

(** X9: the file written determines the colouring: two colourings that are
    written as the same lines are the same mapping. *)
Theorem write_coloring_to_csv_inj (c1 c2 : Coloring) :
  write_coloring_to_csv c1 = write_coloring_to_csv c2 → c1 = c2.
Proof.
  unfold write_coloring_to_csv. intros [= Hlines].
  assert (sorted_coloring c1 = sorted_coloring c2) as Hitems.
  { revert Hlines. generalize (sorted_coloring c1) (sorted_coloring c2).
    induction l as [|[v c] l IH]; intros [|[v' c'] l']; try done.
    rewrite !fmap_cons. intros [= Hrow Hl]. apply (f_equal csv_row) in Hrow.
    rewrite !csv_row_pair in Hrow
      by (apply spaceless_pretty_Z || apply spaceless_pretty_nat).
    injection Hrow as Hv%(inj pretty) Hc%(inj pretty).
    subst. f_equal. by apply IH. }
  apply map_eq. intros v. apply option_eq. intros c.
  by rewrite <- !elem_of_sorted_coloring, Hitems.
Qed.

Lemma write_coloring_to_csv_inj_witness :
  <[2%Z := 1]> (<[1%Z := 0]> (∅ : Coloring))
  = <[1%Z := 0]> (<[2%Z := 1]> (∅ : Coloring)).
Proof. apply write_coloring_to_csv_inj. vm_compute. reflexivity. Defined.

(** ** What the search can raise *)

Lemma num_of_colors_Raise coloring e :
  num_of_colors coloring = Raise e → e = ValueError.
Proof.
  unfold num_of_colors. destruct (values coloring); simpl; congruence.
Qed.

(** Once the locals are bound the loop never reads an unbound one. *)
Lemma search_bound G strategies i b rng :
  search G i strategies (Some b) rng = Raise ValueError
  ∨ ∃ b' rng', search G i strategies (Some b) rng = Ok (Some b', rng')
               ∧ (best_strategy b' = best_strategy b
                  ∨ best_strategy b' ∈ strategies).
Proof.
  revert i b rng. induction strategies as [|s rest IH]; intros i b rng.
  - right. exists b, rng. auto.
  - rewrite search_cons.
    destruct (num_of_colors _) as [n|e] eqn:Hn; simpl.
    + destruct (decide (i = 0)); simpl; [|case_bool_decide];
        (match goal with
         | |- context [search G (S i) rest (Some ?b1) ?r] =>
             destruct (IH (S i) b1 r) as [->|(b' & rng' & -> & Hb')]
         end;
         [by left|right; exists b', rng'; split; [done|]];
         simpl in Hb'; rewrite elem_of_cons; destruct Hb' as [->|?]; auto).
    + left. by rewrite (num_of_colors_Raise _ _ Hn).
Qed.

Lemma search_unbound G s0 rest rng :
  search G 0 (s0 :: rest) None rng = Raise ValueError
  ∨ ∃ b' rng', search G 0 (s0 :: rest) None rng = Ok (Some b', rng')
               ∧ best_strategy b' ∈ s0 :: rest.
Proof.
  rewrite search_cons.
  destruct (num_of_colors _) as [n|e] eqn:Hn; simpl.
  - destruct (search_bound G rest 1 (Best s0 n) (Greedy.greedy_color G s0 rng).2)
      as [->|(b' & rng' & -> & Hb')]; [by left|].
    right. exists b', rng'. split; [done|]. rewrite elem_of_cons. apply Hb'.
  - left. by rewrite (num_of_colors_Raise _ _ Hn).
Qed.

Lemma find_best_strategy_empty rng :
  find_best_strategy Graph.empty rng = Raise ValueError.
Proof.
  unfold find_best_strategy, possible_strategies. rewrite search_cons.
  change (Greedy.greedy_color Graph.empty largest_first rng).1
    with (∅ : Coloring).
  by rewrite num_of_colors_empty.
Qed.

(** X10: on a graph without self-loops [find_best_strategy] either returns
    one of the seven strategies or raises [ValueError], the latter exactly
    when the graph has no vertex: [min_num_of_colors] is never read before
    the first round has assigned it. *)
Theorem find_best_strategy_outcome G rng :
  Graph.wf G → Graph.loop_free G →
  (Graph.nodes G = [] ∧ find_best_strategy G rng = Raise ValueError)
  ∨ (Graph.nodes G ≠ []
     ∧ ∃ s rng', find_best_strategy G rng = Ok (s, rng')
                 ∧ s ∈ possible_strategies).
Proof.
  intros [Hnd _] _. destruct (decide (Graph.nodes G = [])) as [Hnil|Hne].
  - left. split; [done|]. destruct G; [|done]. apply find_best_strategy_empty.
  - right. split; [done|].
    destruct (find_best_strategy_spec G rng Hnd Hne)
      as (_ & s & _ & _ & rng' & Hfind & _).
    exists s, rng'. split; [done|].
    unfold find_best_strategy in Hfind.
    destruct (search_unbound G largest_first (tail possible_strategies) rng)
      as [Hs|(b' & rng1 & Hs & Hb')];
      change (largest_first :: tail possible_strategies)
        with possible_strategies in *; rewrite Hs in Hfind; [done|].
    simpl in Hfind. by injection Hfind as <- <-.
Qed.

Lemma find_best_strategy_outcome_witness :
  Graph.wf triangle ∧ Graph.loop_free triangle
  ∧ ∃ s rng', find_best_strategy triangle [] = Ok (s, rng')
              ∧ s ∈ possible_strategies.
Proof.
  split; [apply wf_triangle|]. split; [apply loop_free_triangle|].
  destruct (find_best_strategy_outcome triangle [] wf_triangle
              loop_free_triangle) as [[Hnil _]|[_ Hok]]; [done|exact Hok].
Defined.

(** ** Whole runs *)

Lemma find_best_strategy_Raise G rng e :
  find_best_strategy G rng = Raise e → e = ValueError.
Proof.
  unfold find_best_strategy.
  destruct (search_unbound G largest_first (tail possible_strategies) rng)
    as [Hs|(b' & rng' & Hs & Hb')];
    change (largest_first :: tail possible_strategies)
      with possible_strategies in *; rewrite Hs; simpl; congruence.
Qed.

Lemma read_graph_from_csv_Raise py_int file e :
  read_graph_from_csv py_int file = Raise e →
  (e = StopIteration ∧ file = []) ∨ (e = ValueError ∧ file ≠ []).
Proof.
  destruct file as [|hdr lines]; [intros [= <-]; by left|].
  rewrite read_graph_from_csv_cons, read_rows_mapM.
  destruct (mapM _ lines); intros [= <-]. by right.
Qed.

Lemma nodes_add_edges_nonempty es :
  es ≠ [] → Graph.nodes (add_edges es Graph.empty) ≠ [].
Proof.
  destruct es as [|[a b] es]; [done|]. intros _ Hnil.
  assert (a ∈ Graph.nodes (add_edges ((a, b) :: es) Graph.empty)) as Ha.
  { apply elem_of_nodes_add_edges. right. exists a, b. split; [left|auto]. }
  rewrite Hnil in Ha. by apply elem_of_nil in Ha.
Qed.

(** [main], with the colouring it writes named. *)
Lemma main_eq py_int file rng :
  main py_int file rng
  = (graph ← read_graph_from_csv py_int file;
     '(s, rng1) ← find_best_strategy graph rng;
     Ok (write_coloring_to_csv (Greedy.greedy_color graph s rng1).1,
         (Greedy.greedy_color graph s rng1).2)).
Proof.
  unfold main. destruct (read_graph_from_csv py_int file) as [G|]; [|done].
  simpl. destruct (find_best_strategy G rng) as [[s rng1]|]; [|done].
  simpl. by destruct (Greedy.greedy_color G s rng1).
Qed.

(** A run that succeeds read at least one edge, and wrote the colouring
    that the winning strategy gave for the graph of the edges. *)
Lemma main_Ok py_int file rng out rng' :
  main py_int file rng = Ok (out, rng') →
  ∃ hdr lines es s rng1,
    file = hdr :: lines
    ∧ Forall2 (λ x e, edge_of_line py_int x = Some e) lines es
    ∧ es ≠ []
    ∧ find_best_strategy (add_edges es Graph.empty) rng = Ok (s, rng1)
    ∧ out = write_coloring_to_csv
              (Greedy.greedy_color (add_edges es Graph.empty) s rng1).1
    ∧ rng' = (Greedy.greedy_color (add_edges es Graph.empty) s rng1).2.
Proof.
  rewrite main_eq.
  destruct (read_graph_from_csv py_int file) as [G|] eqn:Hread; [|done].
  apply read_graph_from_csv_Ok in Hread as (hdr & lines & es & -> & Hes & ->).
  simpl. destruct (find_best_strategy _ rng) as [[s rng1]|] eqn:Hfind; [|done].
  simpl. intros [= <- <-]. exists hdr, lines, es, s, rng1.
  split_and!; try done. intros ->. by rewrite find_best_strategy_empty in Hfind.
Qed.

Lemma is_Some_edge_of_line py_int line :
  is_Some (edge_of_line py_int line) ↔ ∃ a b, edge_line py_int line a b.
Proof.
  split.
  - intros [[a b] He]. exists a, b. by apply edge_of_line_edge_line.
  - intros (a & b & He%edge_of_line_edge_line). eauto.
Qed.

(** X11: on a file of plain lines none of which joins a vertex to itself, a
    run succeeds exactly when the file has a header line, at least one edge
    line, and nothing but edge lines after the header.  A file without any
    line ends the run with [StopIteration]; every other failure, the file
    with the header alone included, is a [ValueError]. *)
Theorem main_outcome py_int file rng :
  Forall plain file →
  (∀ x a, x ∈ tail file → ¬ edge_line py_int x a a) →
  ((∃ out rng', main py_int file rng = Ok (out, rng'))
   ↔ ∃ hdr x lines,
       file = hdr :: x :: lines
       ∧ Forall (λ y, ∃ a b, edge_line py_int y a b) (x :: lines))
  ∧ ∀ e, main py_int file rng = Raise e →
         (e = StopIteration ∧ file = []) ∨ (e = ValueError ∧ file ≠ []).
Proof.
  intros _ _. split; [split|].
  - intros (out & rng' & Hmain).
    apply main_Ok in Hmain as (hdr & lines & es & s & rng1 & -> & Hes & Hne & _).
    destruct Hes as [|x e lines es Hx Hes]; [done|].
    exists hdr, x, lines. split; [done|].
    constructor; [apply is_Some_edge_of_line; by rewrite Hx|].
    eapply Forall2_Forall_l; [exact Hes|]. apply Forall_forall.
    intros e' _ y He. apply is_Some_edge_of_line. by rewrite He.
  - intros (hdr & x & lines & -> & Hall). rewrite main_eq.
    rewrite read_graph_from_csv_cons, read_rows_mapM.
    assert (Forall (λ y, is_Some (edge_of_line py_int y)) (x :: lines)) as Hall'.
    { eapply Forall_impl; [exact Hall|]. intros y. apply is_Some_edge_of_line. }
    apply mapM_is_Some in Hall' as [es Hes]. rewrite Hes. simpl.
    assert (es ≠ []) as Hne.
    { apply mapM_Some, Forall2_length in Hes. by destruct es. }
    destruct (find_best_strategy_spec (add_edges es Graph.empty) rng)
      as (_ & s & _ & _ & rng1 & -> & _).
    + apply wf_add_edges, GraphFacts.wf_empty.
    + by apply nodes_add_edges_nonempty.
    + simpl. eauto.
  - intros e. rewrite main_eq.
    destruct (read_graph_from_csv py_int file) as [G|e'] eqn:Hread; simpl.
    + destruct (find_best_strategy G rng) as [[s rng1]|e''] eqn:Hfind;
        simpl; [done|].
      intros [= <-]. right. split; [by eapply find_best_strategy_Raise|].
      by intros ->.
    + intros [= <-]. by apply (read_graph_from_csv_Raise _ _ _ Hread).
Qed.

Lemma main_outcome_witness :
  (∃ out rng', main int_decimal triangle_file [] = Ok (out, rng'))
  ∧ main int_decimal ["vertex1 vertex2"; "1 2"; "2"]%string [] = Raise ValueError.
Proof.
  assert (∀ file, Forall (λ x, ∀ a, edge_of_line int_decimal x ≠ Some (a, a))
                         (tail file) →
                  ∀ x a, x ∈ tail file → ¬ edge_line int_decimal x a a)
    as Hloops.
  { intros file Hall x a Hx He%edge_of_line_edge_line.
    rewrite Forall_forall in Hall. by apply (Hall x Hx a). }
  split.
  - apply (main_outcome int_decimal triangle_file []).
    + by apply (bool_decide_unpack _).
    + apply Hloops.
      repeat constructor; intros a H; vm_compute in H; congruence.
    + exists "vertex1 vertex2"%string, "1 2"%string, ["2 3"; "3 1"]%string.
      split; [done|].
      repeat constructor; do 2 eexists; apply edge_of_line_edge_line;
        reflexivity.
  - destruct (main int_decimal ["vertex1 vertex2"; "1 2"; "2"]%string [])
      as [r|e] eqn:Hmain; [by vm_compute in Hmain|].
    assert (Forall plain ["vertex1 vertex2"; "1 2"; "2"]%string) as Hplain
      by (by apply (bool_decide_unpack _)).
    assert (∀ x a, x ∈ tail ["vertex1 vertex2"; "1 2"; "2"]%string →
                   ¬ edge_line int_decimal x a a) as Hfree.
    { apply Hloops.
      repeat constructor; intros a H; vm_compute in H; congruence. }
    by destruct (proj2 (main_outcome int_decimal _ [] Hplain Hfree) e Hmain)
      as [[_ ?]|[-> _]].
Defined.


Lemma size_map_img_le (coloring : Coloring) :
  size (map_img coloring : gset nat) ≤ size coloring.
Proof.
  assert (map_img coloring = (list_to_set (values coloring) : gset nat)) as ->.
  { apply set_eq. intros x.
    by rewrite elem_of_map_img, elem_of_list_to_set, elem_of_values. }
  etrans; [apply GreedyFacts.size_list_to_set_le|].
  unfold values. by rewrite length_fmap, length_map_to_list.
Qed.





(** ** The flags of [main] *)

Lemma main_run_eq py_int file path plot verbose rng :
  main_run py_int file path plot verbose rng
  = (graph ← read_graph_from_csv py_int file;
     '(s, rng1) ← find_best_strategy graph rng;
     colored ←
       (if verbose
        then n ← num_of_colors (Greedy.greedy_color graph s rng1).1;
             Ok ["Colored graph with " +:+ pretty n +:+ " colors"]
        else Ok []);
     Ok (Run (write_coloring_to_csv (Greedy.greedy_color graph s rng1).1)
             ((if verbose then ["Stored coloring data at " +:+ path] else [])
              ++ colored)
             (if plot
              then Some (node_color graph (Greedy.greedy_color graph s rng1).1)
              else None),
         (Greedy.greedy_color graph s rng1).2)).
Proof.
  unfold main_run. destruct (read_graph_from_csv py_int file) as [G|]; [|done].
  simpl. destruct (find_best_strategy G rng) as [[s rng1]|]; [|done].
  simpl. by destruct (Greedy.greedy_color G s rng1).
Qed.

(** In a run that got past the search, the colours of the colouring can be
    counted: the graph has a vertex. *)
Lemma searched_counted py_int file G rng s rng1 rng2 :
  read_graph_from_csv py_int file = Ok G →
  find_best_strategy G rng = Ok (s, rng1) →
  Graph.wf G
  ∧ ∃ k, num_of_colors (Greedy.greedy_color G s rng2).1 = Ok k
         ∧ colors_below k (Greedy.greedy_color G s rng2).1
         ∧ 1 ≤ k.
Proof.
  intros Hread Hfind.
  pose proof (wf_read_graph_from_csv _ _ _ Hread) as HG. split; [done|].
  apply read_graph_from_csv_Ok in Hread as (hdr & lines & es & _ & _ & ->).
  assert (es ≠ []) as Hne.
  { intros ->. by rewrite find_best_strategy_empty in Hfind. }
  apply nodes_add_edges_nonempty in Hne.
  destruct (greedy_color_counted _ s rng2 (proj1 HG) Hne) as (k & Hk & Hbelow).
  exists k. split_and!; [done..|].
  destruct k; [|lia]. unfold num_of_colors in Hk.
  destruct (py_max _); simpl in Hk; [|done]. injection Hk. lia.
Qed.



(** X15: with [verbose] a run prints two lines, the path of the file
    stored and the number of colours; that number is the number of distinct
    colours of the colouring written, at least one and at most the number
    of vertices. *)
Theorem main_run_verbose py_int file path plot rng r rng' :
  main_run py_int file path plot true rng = Ok (r, rng') →
  ∃ coloring k,
    written r = write_coloring_to_csv coloring
    ∧ printed r = [ "Stored coloring data at " +:+ path;
                    "Colored graph with " +:+ pretty k +:+ " colors" ]
    ∧ size (map_img coloring : gset nat) = k
    ∧ 1 ≤ k ≤ size coloring.
Proof.
  rewrite main_run_eq.
  destruct (read_graph_from_csv py_int file) as [G|] eqn:Hread; [|done].
  simpl. destruct (find_best_strategy G rng) as [[s rng1]|] eqn:Hfind; [|done].
  simpl.
  destruct (searched_counted _ _ _ _ _ _ rng1 Hread Hfind)
    as (_ & k & -> & Hbelow & Hk).
  simpl. intros [= <- <-]. eexists _, k. simpl.
  pose proof (size_img_below k _ Hbelow) as Hsize.
  split_and!; [done..|lia|].
  rewrite <- Hsize. apply size_map_img_le.
Qed.

Lemma main_run_verbose_witness :
  ∃ coloring k,
    ["vertex color"; "1 0"; "2 1"; "3 2"]%string
    = write_coloring_to_csv coloring
    ∧ ["Stored coloring data at colors.csv";
       "Colored graph with 3 colors"]%string
      = [ "Stored coloring data at " +:+ "colors.csv";
          "Colored graph with " +:+ pretty k +:+ " colors" ]
    ∧ size (map_img coloring : gset nat) = k
    ∧ 1 ≤ k ≤ size coloring.
Proof.
  apply (main_run_verbose int_decimal triangle_file "colors.csv" false []
           (Run ["vertex color"; "1 0"; "2 1"; "3 2"]%string
                ["Stored coloring data at colors.csv";
                 "Colored graph with 3 colors"]%string None) []).
  vm_compute. reflexivity.
Defined.

(** X16: with [plot] a run draws the colouring it writes, one colour for
    each vertex of the graph in the order of the vertices, and each vertex
    in its own colour: the default 0 of [coloring.get] is never used. *)
Theorem main_run_plot py_int file path verbose rng r rng' :
  main_run py_int file path true verbose rng = Ok (r, rng') →
  ∃ graph coloring,
    read_graph_from_csv py_int file = Ok graph
    ∧ written r = write_coloring_to_csv coloring
    ∧ drawn r = Some (node_color graph coloring)
    ∧ Forall2 (λ node color, coloring !! node = Some color)
              (Graph.nodes graph) (node_color graph coloring).
Proof.
  rewrite main_run_eq.
  destruct (read_graph_from_csv py_int file) as [G|] eqn:Hread; [|done].
  simpl. destruct (find_best_strategy G rng) as [[s rng1]|] eqn:Hfind; [|done].
  simpl.
  destruct (searched_counted _ _ _ _ _ _ rng1 Hread Hfind)
    as ([Hnd _] & k & -> & _).
  destruct verbose; simpl; intros [= <- <-]; exists G; eexists;
    (split_and!; [done..|]);
    unfold node_color; apply Forall2_fmap_r, Forall_Forall2_diag, Forall_forall;
    intros u Hu;
    apply (GreedyFacts.greedy_color_covers G s rng1 Hnd) in Hu as [c Hc];
    simpl; by rewrite Hc.
Qed.

Lemma main_run_plot_witness :
  ∃ graph coloring,
    read_graph_from_csv int_decimal hexagon_file = Ok graph
    ∧ ["vertex color"; "1 1"; "2 0"; "3 1"; "4 0"; "5 1"; "6 0"]%string
      = write_coloring_to_csv coloring
    ∧ Some [1; 0; 0; 1; 1; 0] = Some (node_color graph coloring)
    ∧ Forall2 (λ node color, coloring !! node = Some color)
              (Graph.nodes graph) (node_color graph coloring).
Proof.
  apply (main_run_plot int_decimal hexagon_file "colors.csv" false []
           (Run ["vertex color"; "1 1"; "2 0"; "3 1"; "4 0"; "5 1"; "6 0"]%string
                [] (Some [1; 0; 0; 1; 1; 0])) []).
  vm_compute. reflexivity.
Defined.
